(** * Prompt-Automata: token accounting, task scheduling, reference
      validation and block refresh

    A shallow embedding of the Python services
      - [src/app/services/global_token_counter.py]
      - [src/app/services/background_processor.py]
      - [src/app/models/reference_models.py], [src/app/services/reference_service.py],
        [src/app/services/file_path_validator.py]
      - [src/app/services/refresh_service.py], [src/app/services/token_service.py]
    followed by the properties established about them.

    Python integers are unbounded and are modelled by [Z]; a [dict] keyed by
    strings is a [gmap string _]; a raised exception is the [Raise] branch of
    [result]; calls to listeners, to the error notification service and to the
    logger are recorded in a trace of [event]s. Every coroutine of the token
    counter runs its mutation under [self._lock], so one call is one atomic
    step of the model. *)

From Stdlib Require Import ZArith Lia Ascii String.
From stdpp Require Import gmap strings list fin_maps.

Open Scope string_scope.
Open Scope Z_scope.
Open Scope list_scope.

(** ** Python exceptions and results *)

Module Py.

Inductive exn_kind :=
| InvalidTokenCountError
| BlockNotFoundError
| ValueError
| TypeError
| KeyError
| TimeoutError
| TokenizationError
| RefreshError
| PlainException.

(** An exception: its class and [str(e)]; [ExnFrom] is [raise ... from cause],
    which sets [e.__cause__]. *)
Inductive exn :=
| Exn (kind : exn_kind) (msg : string)
| ExnFrom (kind : exn_kind) (msg : string) (cause : exn).

Definition exn_class (e : exn) : exn_kind :=
  match e with Exn k _ | ExnFrom k _ _ => k end.
Definition exn_str (e : exn) : string :=
  match e with Exn _ m | ExnFrom _ m _ => m end.
Definition exn_cause (e : exn) : option exn :=
  match e with Exn _ _ => None | ExnFrom _ _ c => Some c end.

Inductive result (A : Type) :=
| Ok (a : A)
| Raise (e : exn).
Arguments Ok {A} a.
Arguments Raise {A} e.

Definition is_ok {A} (r : result A) : bool :=
  match r with Ok _ => true | Raise _ => false end.

End Py.
Export Py.

(** ** The global token counter ([global_token_counter.py]) *)

Module Counter.

(** [@dataclass TokenBlock]; [__post_init__] rejects a negative count. *)
Record TokenBlock := { id : string; token_count : Z }.

Definition new_TokenBlock (i : string) (n : Z) : result TokenBlock :=
  if n <? 0 then Raise (Exn InvalidTokenCountError "Token count cannot be negative")
  else Ok {| id := i; token_count := n |}.

(** A listener is a callable taking the total; all the counter can observe of
    it is whether a call returns or raises. *)
Record Listener := { lname : nat; lraises : Z → bool }.

(** What [add_listener] may be handed. *)
Inductive callback :=
| Callable (l : Listener)
| NotCallable.

Inductive event :=
| ListenerCalled (l : nat) (total : Z)
| ErrorNotified (error_code : string)
| Logged (msg : string).

Record GlobalTokenCounter := {
  _blocks : gmap string TokenBlock;
  _total_tokens : Z;
  _listeners : list Listener
}.

Definition init : GlobalTokenCounter :=
  {| _blocks := ∅; _total_tokens := 0; _listeners := [] |}.

Definition total_tokens (c : GlobalTokenCounter) : Z := _total_tokens c.

(** [sum(block.token_count for block in self._blocks.values())] *)
Definition sum_blocks (m : gmap string TokenBlock) : Z :=
  map_fold (λ _ b acc, token_count b + acc) 0 m.

(** [self._listeners[callback] = None]: a key already present is kept once.
    The dictionary holds its keys weakly; the model describes listeners that are
    still alive. *)
Definition add_listener (cb : callback) (c : GlobalTokenCounter)
  : result unit * GlobalTokenCounter * list event :=
  match cb with
  | NotCallable =>
      (Raise (Exn TypeError "Callback must be callable"), c,
       [ErrorNotified "INVALID_CALLBACK"])
  | Callable l =>
      if existsb (λ l', Nat.eqb (lname l') (lname l)) (_listeners c)
      then (Ok tt, c, [])
      else (Ok tt,
            {| _blocks := _blocks c; _total_tokens := _total_tokens c;
               _listeners := _listeners c ++ [l] |}, [])
  end.

(** [_notify_listeners]: every listener is called with the current total; a
    raising callback is reported and the loop goes on. Only callables are ever
    stored, so the non-callable branch of the source is never taken. *)
Definition _notify_listeners (c : GlobalTokenCounter) : list event :=
  flat_map (λ l,
    ListenerCalled (lname l) (_total_tokens c) ::
    (if lraises l (_total_tokens c)
     then [ErrorNotified "LISTENER_CALLBACK_ERROR"] else []))
    (_listeners c).

Definition update_block (block_id : string) (count : Z) (c : GlobalTokenCounter)
  : result unit * GlobalTokenCounter * list event :=
  if count <? 0 then
    (Raise (Exn InvalidTokenCountError "Token count cannot be negative"), c,
     [ErrorNotified "INVALID_TOKEN_COUNT"])
  else
    let blocks' :=
      if count =? 0 then delete block_id (_blocks c)
      else <[block_id := {| id := block_id; token_count := count |}]> (_blocks c) in
    let c' := {| _blocks := blocks'; _total_tokens := sum_blocks blocks';
                 _listeners := _listeners c |} in
    (Ok tt, c', _notify_listeners c').

(** The values of the [updates] dict are arbitrary Python objects; the batch
    validation tells integers from the rest. *)
Inductive count_arg :=
| IntCount (n : Z)
| NotInt.

Definition invalid_count (a : count_arg) : bool :=
  match a with
  | IntCount n => n <? 0
  | NotInt => true
  end.

Definition count_value (a : count_arg) : Z :=
  match a with IntCount n => n | NotInt => 0 end.

(** One turn of the loop of [update_blocks_batch]: a missing block is created
    with count 0, then its [token_count] attribute is assigned. *)
Definition batch_step (m : gmap string TokenBlock) (u : string * count_arg)
  : gmap string TokenBlock :=
  let m1 := match m !! u.1 with
            | Some _ => m
            | None => <[u.1 := {| id := u.1; token_count := 0 |}]> m
            end in
  alter (λ b, {| id := id b; token_count := count_value u.2 |}) u.1 m1.

(** [updates] is the dict in iteration order. The message of the
    [ValueError] ends with the offending entries, left out here. *)
Definition update_blocks_batch (updates : list (string * count_arg))
  (c : GlobalTokenCounter) : result unit * GlobalTokenCounter * list event :=
  match updates with
  | [] => (Ok tt, c, [])
  | _ =>
      if existsb (λ u, invalid_count u.2) updates then
        (Raise (Exn ValueError "Invalid token counts in batch update"), c,
         [Logged "Error in batch update"])
      else
        let blocks' := foldl batch_step (_blocks c) updates in
        (Ok tt,
         {| _blocks := blocks'; _total_tokens := sum_blocks blocks';
            _listeners := _listeners c |}, [])
  end.

Definition remove_block (block_id : string) (c : GlobalTokenCounter)
  : result unit * GlobalTokenCounter * list event :=
  match _blocks c !! block_id with
  | None =>
      (Raise (Exn BlockNotFoundError ("Block " +:+ block_id +:+ " not found")), c,
       [ErrorNotified "BLOCK_NOT_FOUND"])
  | Some b =>
      let c' := {| _blocks := delete block_id (_blocks c);
                   _total_tokens := _total_tokens c - token_count b;
                   _listeners := _listeners c |} in
      (Ok tt, c', _notify_listeners c')
  end.

(** [set_total_tokens]: the callbacks are called inline; the negative case is
    raised inside the [try] and so reported under SET_TOTAL_ERROR. *)
Definition set_total_tokens (total : Z) (c : GlobalTokenCounter)
  : result unit * GlobalTokenCounter * list event :=
  if total <? 0 then
    (Raise (Exn InvalidTokenCountError "Total token count cannot be negative"), c,
     [Logged "Error setting total tokens"; ErrorNotified "SET_TOTAL_ERROR"])
  else
    let c' := {| _blocks := _blocks c; _total_tokens := total;
                 _listeners := _listeners c |} in
    (Ok tt, c',
     flat_map (λ l,
       ListenerCalled (lname l) total ::
       (if lraises l total
        then [Logged "Error in token count listener"; ErrorNotified "LISTENER_ERROR"]
        else []))
       (_listeners c)).

(** [reset] is synchronous and cannot fail. *)
Definition reset (c : GlobalTokenCounter) : GlobalTokenCounter * list event :=
  ({| _blocks := ∅; _total_tokens := 0; _listeners := _listeners c |},
   flat_map (λ l,
     ListenerCalled (lname l) 0 ::
     (if lraises l 0 then [Logged "Failed to notify listener of reset"] else []))
     (_listeners c)).

(** [self._blocks[block_id]] *)
Definition dict_getitem {V} (m : gmap string V) (k : string) : result V :=
  match m !! k with
  | Some v => Ok v
  | None => Raise (Exn KeyError k)
  end.

(** [get_block_count]: the conditional expression sits in a [try]; the
    handler reports GET_BLOCK_COUNT_ERROR and answers 0. *)
Definition get_block_count (block_id : string) (c : GlobalTokenCounter)
  : Z * list event :=
  let attempt :=
    if bool_decide (is_Some (_blocks c !! block_id))
    then match dict_getitem (_blocks c) block_id with
         | Ok b => Ok (token_count b)
         | Raise e => Raise e
         end
    else Ok 0 in
  match attempt with
  | Ok n => (n, [])
  | Raise _ => (0, [ErrorNotified "GET_BLOCK_COUNT_ERROR"])
  end.

(** The mutating calls, as a caller issues them. *)
Inductive call :=
| UpdateBlock (block_id : string) (count : Z)
| UpdateBlocksBatch (updates : list (string * count_arg))
| RemoveBlock (block_id : string)
| SetTotalTokens (total : Z)
| Reset.

Definition step (k : call) (c : GlobalTokenCounter)
  : result unit * GlobalTokenCounter * list event :=
  match k with
  | UpdateBlock i n => update_block i n c
  | UpdateBlocksBatch us => update_blocks_batch us c
  | RemoveBlock i => remove_block i c
  | SetTotalTokens t => set_total_tokens t c
  | Reset => let '(c', tr) := reset c in (Ok tt, c', tr)
  end.

Definition after (k : call) (c : GlobalTokenCounter) : GlobalTokenCounter :=
  (step k c).1.2.

(** The states reached after each call of a sequence, in order. *)
Fixpoint states_after (ks : list call) (c : GlobalTokenCounter)
  : list GlobalTokenCounter :=
  match ks with
  | [] => []
  | k :: ks' => after k c :: states_after ks' (after k c)
  end.

Definition is_set_total (k : call) : bool :=
  match k with SetTotalTokens _ => true | _ => false end.

(** The invariant of the data model. *)
Definition consistent (c : GlobalTokenCounter) : Prop :=
  _total_tokens c = sum_blocks (_blocks c).

Definition all_positive (c : GlobalTokenCounter) : Prop :=
  ∀ i b, _blocks c !! i = Some b → 0 < token_count b.

End Counter.

(** ** The background processor ([background_processor.py]) *)

Module Scheduler.

Inductive TaskPriority := HIGH | MEDIUM | LOW.

(** [TaskPriority.value] *)
Definition priority_value (p : TaskPriority) : Z :=
  match p with HIGH => 0 | MEDIUM => 1 | LOW => 2 end.

Inductive TaskStatus := PENDING | RUNNING | COMPLETED | FAILED.

(** A [uuid.UUID] is a 128-bit number. *)
Definition UUID := N.

(** [@dataclass Task]. The callable with its [args] and [kwargs] is the
    function [func]: given how many times it was invoked before, it returns a
    value or raises. [created_at] is left out: its default is evaluated once,
    when the class is defined, and nothing reads it in this module. *)
Record Task := {
  id : UUID;
  func : nat → Py.result string;
  priority : TaskPriority;
  status : TaskStatus;
  result : option string;
  error : option exn;
  started_at : option nat;
  completed_at : option nat;
  retries : nat;
  max_retries : nat
}.

Definition new_Task (i : UUID) (f : nat → Py.result string) (p : TaskPriority) : Task :=
  {| id := i; func := f; priority := p; status := PENDING; result := None;
     error := None; started_at := None; completed_at := None;
     retries := 0; max_retries := 3 |}.

Definition set_running (now : nat) (t : Task) : Task :=
  {| id := id t; func := func t; priority := priority t; status := RUNNING;
     result := result t; error := error t; started_at := Some now;
     completed_at := completed_at t; retries := retries t;
     max_retries := max_retries t |}.

Definition set_completed (v : string) (t : Task) : Task :=
  {| id := id t; func := func t; priority := priority t; status := COMPLETED;
     result := Some v; error := error t; started_at := started_at t;
     completed_at := completed_at t; retries := retries t;
     max_retries := max_retries t |}.

Definition set_failed (e : exn) (t : Task) : Task :=
  {| id := id t; func := func t; priority := priority t; status := FAILED;
     result := result t; error := Some e; started_at := started_at t;
     completed_at := completed_at t; retries := retries t;
     max_retries := max_retries t |}.

Definition incr_retries (t : Task) : Task :=
  {| id := id t; func := func t; priority := priority t; status := status t;
     result := result t; error := error t; started_at := started_at t;
     completed_at := completed_at t; retries := S (retries t);
     max_retries := max_retries t |}.

Definition set_completed_at (now : nat) (t : Task) : Task :=
  {| id := id t; func := func t; priority := priority t; status := status t;
     result := result t; error := error t; started_at := started_at t;
     completed_at := Some now; retries := retries t;
     max_retries := max_retries t |}.

Inductive activity :=
| Invoked (task : UUID) (previous_calls : nat)
| Slept (seconds : Z)
| Warned (task : UUID) (attempt : nat)
| TaskFailed (task : UUID)
| WorkerError (e : exn).

(** *** The heap of [asyncio.PriorityQueue]

    The queue stores the tuples [(priority.value, task)] in a list kept as a
    binary heap by [heapq]. The task table and the queue share the [Task]
    objects; an object is named here by its key in the table, one object per
    key as long as the draws of [uuid4] do not repeat. *)
Definition entry := (Z * UUID)%type.

(** [a < b] on two queue tuples. Tuples are compared item by item: the first
    items that differ decide. With equal priorities the decision falls on the
    two [Task] objects, and the dataclass defines [__eq__] but no ordering, so
    [<] between two distinct tasks raises [TypeError]. *)
Definition entry_lt (a b : entry) : Py.result bool :=
  if a.1 =? b.1 then
    if (a.2 =? b.2)%N then Ok false
    else Raise (Exn TypeError "'<' not supported between instances of 'Task' and 'Task'")
  else Ok (a.1 <? b.1).

(** [heapq]'s sift-down, as CPython does it: the new item is swapped with its
    parent while it is smaller; a failing comparison leaves the swaps made so
    far. [fuel] bounds the walk to the root, [pos] is enough. *)
Fixpoint siftdown (fuel : nat) (heap : list entry) (startpos pos : nat)
  : Py.result unit * list entry :=
  match fuel with
  | O => (Ok tt, heap)
  | S fuel' =>
      if (startpos <? pos)%nat then
        let parentpos := ((pos - 1) / 2)%nat in
        match heap !! pos, heap !! parentpos with
        | Some newitem, Some parent =>
            match entry_lt newitem parent with
            | Raise e => (Raise e, heap)
            | Ok false => (Ok tt, heap)
            | Ok true =>
                siftdown fuel' (<[parentpos := newitem]> (<[pos := parent]> heap))
                         startpos parentpos
            end
        | _, _ => (Ok tt, heap)
        end
      else (Ok tt, heap)
  end.

(** [heapq.heappush]: append, then sift down from the last position. *)
Definition heappush (heap : list entry) (item : entry) : Py.result unit * list entry :=
  siftdown (length heap) (heap ++ [item]) 0 (length heap).

(** [heapq]'s sift-up: the smaller child is bubbled up until a leaf is hit,
    then the moved item is sifted down to its place. *)
Fixpoint siftup_loop (fuel : nat) (heap : list entry) (pos : nat)
  : Py.result nat * list entry :=
  match fuel with
  | O => (Ok pos, heap)
  | S fuel' =>
      let endpos := length heap in
      if (pos <? endpos / 2)%nat then
        let left := (2 * pos + 1)%nat in
        let pick :=
          if (left + 1 <? endpos)%nat then
            match heap !! left, heap !! (left + 1)%nat with
            | Some a, Some b =>
                match entry_lt a b with
                | Raise e => Raise e
                | Ok true => Ok left
                | Ok false => Ok (left + 1)%nat
                end
            | _, _ => Ok left
            end
          else Ok left in
        match pick with
        | Raise e => (Raise e, heap)
        | Ok childpos =>
            match heap !! childpos, heap !! pos with
            | Some c, Some x =>
                siftup_loop fuel' (<[pos := c]> (<[childpos := x]> heap)) childpos
            | _, _ => (Ok pos, heap)
            end
        end
      else (Ok pos, heap)
  end.

Definition siftup (heap : list entry) (pos : nat) : Py.result unit * list entry :=
  match siftup_loop (length heap) heap pos with
  | (Raise e, heap') => (Raise e, heap')
  | (Ok leaf, heap') => siftdown leaf heap' pos leaf
  end.

(** [heapq.heappop] on a non-empty heap: the last item is taken off and, when
    others remain, put at the root in place of the item to return. When the
    sift-up raises, the item that was at the root is lost. *)
Definition heappop (heap : list entry) : Py.result entry * list entry :=
  match last heap with
  | None => (Raise (Exn PlainException "index out of range"), heap)
  | Some lastelt =>
      let heap1 := removelast heap in
      match heap1 with
      | [] => (Ok lastelt, [])
      | returnitem :: rest =>
          match siftup (lastelt :: rest) 0 with
          | (Raise e, heap2) => (Raise e, heap2)
          | (Ok _, heap2) => (Ok returnitem, heap2)
          end
      end
  end.

(** *** The processor *)

Record BackgroundProcessor := {
  max_workers : nat;
  tasks : gmap UUID Task;
  queue : list entry;
  unfinished_tasks : nat;
  workers : nat;
  _running : bool;
  uuid_calls : nat;
  clock : nat
}.

Definition new (n : nat) : BackgroundProcessor :=
  {| max_workers := n; tasks := ∅; queue := []; unfinished_tasks := 0;
     workers := 0; _running := false; uuid_calls := 0; clock := 0 |}.

Definition with_tasks (m : gmap UUID Task) (p : BackgroundProcessor) :=
  {| max_workers := max_workers p; tasks := m; queue := queue p;
     unfinished_tasks := unfinished_tasks p; workers := workers p;
     _running := _running p; uuid_calls := uuid_calls p; clock := clock p |}.

Definition with_queue (q : list entry) (n : nat) (p : BackgroundProcessor) :=
  {| max_workers := max_workers p; tasks := tasks p; queue := q;
     unfinished_tasks := n; workers := workers p;
     _running := _running p; uuid_calls := uuid_calls p; clock := clock p |}.

Definition with_workers (w : nat) (r : bool) (p : BackgroundProcessor) :=
  {| max_workers := max_workers p; tasks := tasks p; queue := queue p;
     unfinished_tasks := unfinished_tasks p; workers := w;
     _running := r; uuid_calls := uuid_calls p; clock := clock p |}.

Definition drew_uuid (p : BackgroundProcessor) :=
  {| max_workers := max_workers p; tasks := tasks p; queue := queue p;
     unfinished_tasks := unfinished_tasks p; workers := workers p;
     _running := _running p; uuid_calls := S (uuid_calls p); clock := clock p |}.

Definition tick (p : BackgroundProcessor) :=
  {| max_workers := max_workers p; tasks := tasks p; queue := queue p;
     unfinished_tasks := unfinished_tasks p; workers := workers p;
     _running := _running p; uuid_calls := uuid_calls p; clock := S (clock p) |}.

(** [start]: idempotent; spawns [max_workers] worker coroutines. *)
Definition start (p : BackgroundProcessor) : BackgroundProcessor :=
  if _running p then p else with_workers (max_workers p) true p.

(** [stop]: clears the flag, waits for the queue to be joined and cancels the
    workers; the waiting is not part of this model. *)
Definition stop (p : BackgroundProcessor) : BackgroundProcessor :=
  with_workers 0 false p.

Definition get_task (task_id : UUID) (p : BackgroundProcessor) : option Task :=
  tasks p !! task_id.

(** The retry loop of [_worker] on one task: [while task.retries <
    task.max_retries] with its [else] branch, inside the [try] whose handler
    records the error. [calls] counts the invocations made so far. The loop
    body either leaves the loop or increments [retries], so [max_retries -
    retries] turns are enough; [None] is running out of [fuel]. *)
Fixpoint attempts (fuel : nat) (calls : nat) (t : Task) : option (Task * list activity) :=
  if (retries t <? max_retries t)%nat then
    match fuel with
    | O => None
    | S fuel' =>
        match func t calls with
        | Ok v => Some (set_completed v t, [Invoked (id t) calls])
        | Raise e =>
            let t' := incr_retries t in
            if (max_retries t' <=? retries t')%nat then
              Some (set_failed e t', [Invoked (id t) calls; TaskFailed (id t)])
            else
              match attempts fuel' (S calls) t' with
              | None => None
              | Some (t'', tr) =>
                  Some (t'', Invoked (id t) calls :: Warned (id t) (retries t') ::
                             Slept (2 ^ (Z.of_nat (retries t') - 1)) :: tr)
              end
        end
    end
  else
    Some (set_failed (Exn PlainException "Max retries exceeded") t, [TaskFailed (id t)]).

Definition run_task (t : Task) : option (Task * list activity) :=
  attempts (max_retries t - retries t) 0 t.

(** [self.queue.task_done()] *)
Definition task_done (p : BackgroundProcessor) : Py.result unit * BackgroundProcessor :=
  match unfinished_tasks p with
  | O => (Raise (Exn ValueError "task_done() called too many times"), p)
  | S n => (Ok tt, with_queue (queue p) n p)
  end.

(** What a worker does with the task it has taken off the queue. *)
Definition process_task (u : UUID) (p : BackgroundProcessor)
  : option (BackgroundProcessor * list activity) :=
  match tasks p !! u with
  | None => Some (p, [])
  | Some t =>
      let t1 := set_running (clock p) t in
      let p1 := tick p in
      match run_task t1 with
      | None => None
      | Some (t2, tr) =>
          let t3 := set_completed_at (clock p1) t2 in
          let p2 := with_tasks (<[u := t3]> (tasks p1)) (tick p1) in
          match task_done p2 with
          | (Ok _, p3) => Some (p3, tr)
          | (Raise e, p3) => Some (p3, tr ++ [WorkerError e])
          end
      end
  end.

(** One turn of the loop of [_worker] by a spawned worker. On an empty queue
    [get] waits: nothing happens. The loop guard [self._running] is read
    before the wait, so a turn may still run after the flag was cleared. *)
Definition _worker (p : BackgroundProcessor) : option (BackgroundProcessor * list activity) :=
  match workers p, queue p with
  | O, _ => Some (p, [])
  | _, [] => Some (p, [])
  | _, _ =>
      match heappop (queue p) with
      | (Raise e, q') => Some (with_queue q' (unfinished_tasks p) p, [WorkerError e])
      | (Ok item, q') => process_task item.2 (with_queue q' (unfinished_tasks p) p)
      end
  end.

(** The invocation numbers and the delays recorded in a trace. *)
Definition invocations (tr : list activity) : list nat :=
  omap (λ ev, match ev with Invoked _ k => Some k | _ => None end) tr.

Definition sleeps (tr : list activity) : list Z :=
  omap (λ ev, match ev with Slept d => Some d | _ => None end) tr.

(** [delay = base * 2^(attempt-1)] with base 1, for the attempts [from],
    [from+1], ... *)
Definition backoff (from count : nat) : list Z :=
  map (λ attempt, 1 * 2 ^ (Z.of_nat attempt - 1)) (seq from count).

(** A trace pared down to the invocations and the sleeps, in the order in
    which they happened. *)
Inductive move :=
| Call (previous_calls : nat)
| Sleep (seconds : Z).

Definition moves (tr : list activity) : list move :=
  omap (λ ev, match ev with
              | Invoked _ k => Some (Call k)
              | Slept d => Some (Sleep d)
              | _ => None
              end) tr.

(** [failures] failed attempts in a row, each followed by its sleep of
    [1 * 2^(attempt-1)] seconds: the invocations are numbered from [call], the
    attempts from [attempt]. *)
Fixpoint schedule (call attempt failures : nat) : list move :=
  match failures with
  | O => []
  | S n =>
      Call call :: Sleep (1 * 2 ^ (Z.of_nat attempt - 1))
        :: schedule (S call) (S attempt) n
  end.

(** The tasks whose function was invoked, in the order of the invocations. *)
Definition served (tr : list activity) : list UUID :=
  omap (λ ev, match ev with Invoked u _ => Some u | _ => None end) tr.

Section WithUuid.

(** [uuid4()]: the identifier produced by the n-th draw. *)
Variable uuid4 : nat → UUID.

(** [submit]: the task is stored in the table, then put on the queue;
    [put] on the unbounded queue does not wait, and what [heappush] raises
    propagates to the caller after the item was appended. *)
Definition submit (f : nat → Py.result string) (prio : TaskPriority)
  (p : BackgroundProcessor) : Py.result UUID * BackgroundProcessor :=
  let task_id := uuid4 (uuid_calls p) in
  let task := new_Task task_id f prio in
  let p1 := with_tasks (<[task_id := task]> (tasks p)) (drew_uuid p) in
  match heappush (queue p1) (priority_value prio, task_id) with
  | (Ok _, q') => (Ok task_id, with_queue q' (S (unfinished_tasks p1)) p1)
  | (Raise e, q') => (Raise e, with_queue q' (unfinished_tasks p1) p1)
  end.

(** Every key of the task table was drawn from [uuid4]. *)
Definition keys_drawn (p : BackgroundProcessor) : Prop :=
  ∀ u, is_Some (tasks p !! u) → ∃ k, (k < uuid_calls p)%nat ∧ u = uuid4 k.

Inductive op :=
| Submit (f : nat → Py.result string) (prio : TaskPriority)
| Worker
| Start
| Stop.

Definition exec1 (o : op) (p : BackgroundProcessor) : BackgroundProcessor :=
  match o with
  | Submit f prio => (submit f prio p).2
  | Worker => match _worker p with Some (p', _) => p' | None => p end
  | Start => start p
  | Stop => stop p
  end.

Definition exec (os : list op) (p : BackgroundProcessor) : BackgroundProcessor :=
  foldl (λ q o, exec1 o q) p os.

End WithUuid.

(** The default of [submit]'s keyword argument. *)
Definition default_priority : TaskPriority := MEDIUM.

End Scheduler.

(** ** Allowed directories and file references
      ([reference_models.py], [reference_service.py], [file_path_validator.py]) *)

Module Paths.

(** A resolved absolute path, as its components below the root ([Path.parts]
    without the anchor). *)
Definition Path := list string.

(** What the code asks of the file system. *)
Record FileSystem := {
  resolve : string → Path;            (* [Path(s).resolve()] *)
  cwd : string;                       (* [str(Path.cwd())] *)
  exists_ : Path → bool;              (* [Path.exists()] *)
  is_file : Path → bool;              (* [Path.is_file()] *)
  entries : Path → nat;               (* how many names [directory.glob("*")] yields *)
  read_text : Path → Py.result string (* [path.read_text(encoding="utf-8")] *)
}.

(** A row of the table [allowed_directory]. *)
Record AllowedDirectory := { path : string; is_recursive : bool }.

(** [target.relative_to(base)]: [None] stands for the [ValueError] raised when
    [base] is not a prefix of [target]. *)
Fixpoint relative_to (target base : Path) : option Path :=
  match base with
  | [] => Some target
  | b :: base' =>
      match target with
      | [] => None
      | t :: target' => if String.eqb t b then relative_to target' base' else None
      end
  end.

(** [Path.parent]; the root is its own parent. *)
Definition parent (p : Path) : Path := removelast p.

(** [Path.name]; empty for the root. *)
Definition name (p : Path) : string := default "" (last p).

Section WithFileSystem.

Variable fs : FileSystem.

(** [AllowedDirectory.ensure_default_directory]: the working directory is
    added, recursive, unless a row has its path. *)
Definition ensure_default_directory (dirs : list AllowedDirectory)
  : list AllowedDirectory :=
  if existsb (λ d, String.eqb (path d) (cwd fs)) dirs then dirs
  else dirs ++ [{| path := cwd fs; is_recursive := true |}].

(** The loop of [is_path_allowed] over the rows. *)
Fixpoint allowed_by (target : Path) (dirs : list AllowedDirectory) : bool :=
  match dirs with
  | [] => false
  | d :: dirs' =>
      match relative_to target (resolve fs (path d)) with
      | None => allowed_by target dirs'
      | Some relative =>
          if is_recursive d || (length relative <=? 1)%nat then true
          else allowed_by target dirs'
      end
  end.

(** [AllowedDirectory.is_path_allowed]: the pair [(is_allowed, error_message)]
    and the table after the call. *)
Definition is_path_allowed (target_path : string) (dirs : list AllowedDirectory)
  : (bool * option string) * list AllowedDirectory :=
  let dirs1 := ensure_default_directory dirs in
  let target := resolve fs target_path in
  if negb (exists_ fs target) then
    ((false, Some ("Path does not exist: " +:+ target_path)), dirs1)
  else
    match dirs1 with
    | [] => ((false, Some "No allowed directories configured"), dirs1)
    | _ =>
        if allowed_by target dirs1 then ((true, None), dirs1)
        else ((false, Some ("Path is not within allowed directories: " +:+ target_path)),
              dirs1)
    end.

(** What the name [is_valid] of [validate_reference] may be bound to. *)
Inductive pyvalue :=
| PyBool (b : bool)
| PyTuple (t : bool * option string).

(** Truth value testing: a tuple of two items is not empty, hence true. *)
Definition truthy (v : pyvalue) : bool :=
  match v with
  | PyBool b => b
  | PyTuple _ => true
  end.

Inductive ReferenceType := FILE | VARIABLE | API.

(** The tables and services [validate_reference] consults: the persistent
    variables by name, and for each API endpoint by name what its handler's
    [validate_configuration] answers. *)
Record Database := {
  allowed_dirs : list AllowedDirectory;
  variables : gmap string string;
  endpoints : gmap string bool
}.

Definition with_dirs (dirs : list AllowedDirectory) (db : Database) : Database :=
  {| allowed_dirs := dirs; variables := variables db; endpoints := endpoints db |}.

(** [ReferenceService.validate_reference]: the pair [(is_valid, error)]. For a
    file the whole answer of [is_path_allowed] is bound to [is_valid]. *)
Definition validate_reference (reference_type : ReferenceType) (value : string)
  (db : Database) : (pyvalue * option string) * Database :=
  match reference_type with
  | FILE =>
      let '(answer, dirs') := is_path_allowed value (allowed_dirs db) in
      let is_valid := PyTuple answer in
      let error := if negb (truthy is_valid)
                   then Some ("Path '" +:+ value +:+ "' is not allowed") else None in
      ((is_valid, error), with_dirs dirs' db)
  | VARIABLE =>
      match variables db !! value with
      | None => ((PyBool false, Some ("Variable '" +:+ value +:+ "' not found")), db)
      | Some _ => ((PyBool true, None), db)
      end
  | API =>
      match (endpoints db !! value : option bool) with
      | None => ((PyBool false, Some ("API endpoint '" +:+ value +:+ "' not found")), db)
      | Some iv =>
          if iv then ((PyBool true, None), db)
          else ((PyBool false, Some "Invalid API configuration"), db)
      end
  end.

(** *** [FilePathValidator] *)

Definition EXCLUDED_DIRS : list string :=
  [".venv"; ".env"; "node_modules"; "__pycache__"; ".git"].
Definition MAX_SUBDIR_FILES : nat := 1000.
Definition ALLOWED_PATTERNS : list string :=
  ["*.py"; "*.json"; "*.yaml"; "*.yml"; "*.md"].

(** [str.lower] on the ASCII letters. *)
Definition lower_char (c : ascii) : ascii :=
  let n := nat_of_ascii c in
  if ((65 <=? n) && (n <=? 90))%nat then ascii_of_nat (n + 32) else c.

Fixpoint lower (s : string) : string :=
  match s with
  | EmptyString => EmptyString
  | String c s' => String (lower_char c) (lower s')
  end.

Fixpoint ends_with (suffix s : string) : bool :=
  String.eqb s suffix ||
  match s with
  | EmptyString => false
  | String _ s' => ends_with suffix s'
  end.

(** [fnmatch.fnmatch(name, pattern)] for the patterns in use, all of the shape
    [*suffix]. *)
Definition fnmatch (file_name pattern : string) : bool :=
  match pattern with
  | String "*" suffix => ends_with suffix file_name
  | _ => String.eqb file_name pattern
  end.

Definition is_allowed_file_type (p : Path) : bool :=
  existsb (λ pattern, fnmatch (lower (name p)) (lower pattern)) ALLOWED_PATTERNS.

Definition is_excluded_dir (p : Path) : bool :=
  existsb (λ excluded, existsb (String.eqb excluded) p) EXCLUDED_DIRS.

Definition has_too_many_files (directory : Path) : bool :=
  (MAX_SUBDIR_FILES <? entries fs directory)%nat.

Definition is_subpath (p base_path : Path) : bool :=
  match relative_to p base_path with Some _ => true | None => false end.

Definition path_eqb (p q : Path) : bool := bool_decide (p = q).

(** The loop of [validate_path] over the rows: the first row that contains
    the path decides. *)
Fixpoint check_dirs (p : Path) (dirs : list AllowedDirectory)
  : bool * option string * option string :=
  match dirs with
  | [] => (false, Some "Path is not within any allowed directory",
           Some "Inserted file not in allowed directory")
  | d :: dirs' =>
      let base_path := resolve fs (path d) in
      if is_subpath p base_path then
        if negb (is_recursive d) && negb (path_eqb (parent p) base_path)
        then (true, None, Some "Allowed directory is not recursive")
        else (true, None, Some "Inserted file in allowed directory")
      else check_dirs p dirs'
  end.

(** [FilePathValidator.validate_path]: the triple [(is_valid, error_message,
    file_validation_message)]. *)
Definition validate_path (file_path : string) (dirs : list AllowedDirectory)
  : bool * option string * option string :=
  let p := resolve fs file_path in
  if negb (exists_ fs p) then (false, Some ("File not found: " +:+ file_path), None)
  else if negb (is_file fs p) then (false, Some ("Not a file: " +:+ file_path), None)
  else if negb (is_allowed_file_type p) then
    (false,
     Some "File type not allowed. Must be one of: *.py, *.json, *.yaml, *.yml, *.md",
     None)
  else if is_excluded_dir p then
    (false, Some "Path contains excluded directory", None)
  else if has_too_many_files (parent p) then
    (false, Some "Directory has more than 1000 files", None)
  else
    match dirs with
    | [] => (false, Some "No allowed directories configured", None)
    | _ => check_dirs p dirs
    end.


End WithFileSystem.

(** A sample resolver for absolute, normalised POSIX paths: the components
    between the slashes. *)
Fixpoint split_on (sep : ascii) (acc : string) (s : string) : list string :=
  match s with
  | EmptyString => [acc]
  | String c s' =>
      if Ascii.eqb c sep then acc :: split_on sep "" s'
      else split_on sep (acc +:+ String c "") s'
  end.

Definition parts_of (s : string) : Path :=
  filter (λ x, x ≠ "") (split_on "/" "" s).

End Paths.

(** ** Refreshing blocks ([refresh_service.py], [token_service.py]) *)

Module Refresh.

Import Paths.

(** The collaborators outside this code: the file system, litellm's
    [token_counter], what an endpoint's handler gets for [get_resource("")],
    and the references kept in the Flask session under [fence_references]. *)
Record Env := {
  fs : FileSystem;
  tokenizer : string → Py.result Z;
  api_resource : string → Py.result string;
  session_refs : gmap string (list (string * string))
}.

(** The mutable state a refresh touches: the database and the counter. *)
Record World := {
  db : Database;
  counter : Counter.GlobalTokenCounter
}.

(** *** [TokenCountingService] *)

Section WithEnv.

Variable env : Env.

Definition _count_tokens (content : string) : Py.result Z :=
  match tokenizer env content with
  | Ok n => Ok n
  | Raise e =>
      Raise (Exn TokenizationError ("Failed to tokenize content: " +:+ exn_str e))
  end.

Definition count_tokens (content : string) : Py.result Z :=
  if String.eqb content "" then Ok 0
  else match _count_tokens content with
       | Ok n => Ok n
       | Raise e =>
           Raise (Exn TokenizationError ("Failed to count tokens: " +:+ exn_str e))
       end.

(** *** The reference pattern [@\[([^:]+):([^\]]+)\]]

    Each character class excludes the character that must follow it, so a
    match at a given position is unique: after [@[] the longest run without a
    colon, not empty and followed by a colon, then the longest run without a
    closing bracket, not empty and followed by one. *)
Fixpoint span_to (stop : ascii) (s : string) : option (string * string) :=
  match s with
  | EmptyString => None
  | String c s' =>
      if Ascii.eqb c stop then Some ("", s')
      else match span_to stop s' with
           | Some (run, rest) => Some (String c run, rest)
           | None => None
           end
  end.

(** A match starting at the head of [s]: its two groups and its length. *)
Definition match_here (s : string) : option (string * string * nat) :=
  match s with
  | String "@" (String "[" s1) =>
      match span_to ":" s1 with
      | Some (g1, s2) =>
          if String.eqb g1 "" then None
          else match span_to "]" s2 with
               | Some (g2, _) =>
                   if String.eqb g2 "" then None
                   else Some (g1, g2, (String.length g1 + String.length g2 + 4)%nat)
               | None => None
               end
      | None => None
      end
  | _ => None
  end.

(** [re.finditer]: the matches from left to right, without overlap; [skip]
    characters are still inside the match found last. *)
Fixpoint finditer (skip : nat) (s : string) : list (string * string) :=
  match s with
  | EmptyString => []
  | String _ s' =>
      match skip with
      | S k => finditer k s'
      | O =>
          match match_here s with
          | Some (g1, g2, len) => (g1, g2) :: finditer (len - 1) s'
          | None => finditer 0 s'
          end
      end
  end.

(** [needle in s] *)
Fixpoint contains (needle s : string) : bool :=
  String.prefix needle s ||
  match s with
  | EmptyString => false
  | String _ s' => contains needle s'
  end.

(** *** [ReferenceService.get_reference_content] *)

(** [ReferenceType(s)]; [None] stands for the [ValueError]. *)
Definition ReferenceType_of (s : string) : option ReferenceType :=
  if String.eqb s "file" then Some FILE
  else if String.eqb s "variable" then Some VARIABLE
  else if String.eqb s "api" then Some API
  else None.

Definition _get_file_content (reference_value : string) (d : Database)
  : (string * option string) * Database :=
  let '((is_allowed, err), dirs') :=
    is_path_allowed (fs env) reference_value (allowed_dirs d) in
  let d' := with_dirs dirs' d in
  if negb is_allowed then (("", err), d')
  else
    let p := resolve (fs env) reference_value in
    if negb (exists_ (fs env) p) then
      (("", Some ("File not found: " +:+ reference_value)), d')
    else match read_text (fs env) p with
         | Ok text => ((text, None), d')
         | Raise e => (("", Some ("Error getting file content: " +:+ exn_str e)), d')
         end.

Definition _get_variable_content (reference_value : string) (d : Database)
  : string * option string :=
  match variables d !! reference_value with
  | None => ("", Some ("Variable not found: " +:+ reference_value))
  | Some v => (v, None)
  end.

(** What the handler raises is caught by [get_reference_content]. *)
Definition _get_api_content (reference_value : string) (d : Database)
  : string * option string :=
  match (endpoints d !! reference_value : option bool) with
  | None => ("", Some ("API endpoint not found: " +:+ reference_value))
  | Some _ =>
      match api_resource env reference_value with
      | Ok response => (response, None)
      | Raise e => ("", Some ("Error processing reference: " +:+ exn_str e))
      end
  end.

Definition get_reference_content (ref : ReferenceType * string) (d : Database)
  : (string * option string) * Database :=
  match ref.1 with
  | FILE => _get_file_content ref.2 d
  | VARIABLE => (_get_variable_content ref.2 d, d)
  | API => (_get_api_content ref.2 d, d)
  end.

(** Truth value of [error] and of [content]: [None] and the empty string are
    false. *)
Definition nonempty (s : string) : bool := negb (String.eqb s "").
Definition error_set (e : option string) : bool :=
  match e with Some s => nonempty s | None => false end.

(** The second loop of [_process_references]: a reference with an error is
    logged and skipped, a non-empty content is kept. *)
Fixpoint collect_contents (refs : list (ReferenceType * string)) (d : Database)
  : list string * Database :=
  match refs with
  | [] => ([], d)
  | ref :: refs' =>
      let '((content, error), d1) := get_reference_content ref d in
      let '(rest, d2) := collect_contents refs' d1 in
      if error_set error then (rest, d2)
      else if nonempty content then (content :: rest, d2)
      else (rest, d2)
  end.

(** ["\n".join(contents)] *)
Fixpoint join_lines (l : list string) : string :=
  match l with
  | [] => ""
  | [s] => s
  | s :: l' => s +:+ String "010" (join_lines l')
  end.

(** [_process_references]: references of an unknown type are dropped by the
    first loop; nothing in the body raises. *)
Definition _process_references (references : list (string * string)) (d : Database)
  : string * Database :=
  let fence_refs :=
    omap (λ r, match ReferenceType_of r.1 with
               | Some t => Some (t, r.2)
               | None => None
               end) references in
  match fence_refs with
  | [] => ("", d)
  | _ => let '(contents, d') := collect_contents fence_refs d in
         (join_lines contents, d')
  end.

(** *** [RefreshService] *)

(** [await self._process_references(references) if references else ""] *)
Definition reference_content_of (references : list (string * string)) (d : Database)
  : string * Database :=
  match references with
  | [] => ("", d)
  | _ => _process_references references d
  end.

(** The dict [refresh_block] returns. *)
Record BlockResult := {
  content : string;
  token_count : Z;
  total_tokens : Z;
  status : string
}.

Definition with_db (d : Database) (w : World) : World :=
  {| db := d; counter := counter w |}.
Definition with_counter (c : Counter.GlobalTokenCounter) (w : World) : World :=
  {| db := db w; counter := c |}.

Definition block_error (block_id : string) (e : exn) : exn :=
  ExnFrom RefreshError ("Failed to refresh block " +:+ block_id) e.

(** [refresh_block]; [content] is [None] when the caller passes none. *)
Definition refresh_block (block_id : string) (content_arg : option string) (w : World)
  : Py.result BlockResult * World :=
  let text := default "" content_arg in
  let stored := default [] (session_refs env !! block_id) in
  let references :=
    if nonempty text && contains "@[" text then finditer 0 text else stored in
  let '(reference_content, d1) := reference_content_of references (db w) in
  let w1 := with_db d1 w in
  let content_for_counting :=
    if nonempty reference_content then reference_content else text in
  match count_tokens content_for_counting with
  | Raise e => (Raise (block_error block_id e), w1)
  | Ok token_count_result =>
      match Counter.update_block block_id token_count_result (counter w1) with
      | (Raise e, c', _) => (Raise (block_error block_id e), with_counter c' w1)
      | (Ok _, c', _) =>
          (Ok {| content := text; token_count := token_count_result;
                 total_tokens := Counter.total_tokens c'; status := "success" |},
           with_counter c' w1)
      end
  end.

(** The dict [refresh_all] returns. *)
Record AllResult := {
  all_status : string;
  all_total_tokens : Z;
  block_tokens : gmap string Z;
  contents : gmap string string
}.

(** [contents.get(block_id) if contents else None] *)
Definition content_of (contents_arg : option (gmap string string)) (block_id : string)
  : option string :=
  match contents_arg with
  | Some m => m !! block_id
  | None => None
  end.

(** [asyncio.gather(..., return_exceptions=True)] over the block refreshes.
    The coroutines run concurrently; each one writes its own block through
    [update_block] under the counter's lock and the count it returns does not
    depend on the others, so they are run here in the order of [blocks]. *)
Fixpoint gather (blocks : list string) (contents_arg : option (gmap string string))
  (w : World) : list (Py.result BlockResult) * World :=
  match blocks with
  | [] => ([], w)
  | block_id :: blocks' =>
      let '(r, w1) := refresh_block block_id (content_of contents_arg block_id) w in
      let '(rs, w2) := gather blocks' contents_arg w1 in
      (r :: rs, w2)
  end.

(** The loop over [zip(blocks, results)]: an exception is logged, a result
    is entered in both dicts and added to the total. *)
Definition tally (acc : AllResult) (item : string * Py.result BlockResult) : AllResult :=
  match item.2 with
  | Raise _ => acc
  | Ok r =>
      {| all_status := all_status acc;
         all_total_tokens := all_total_tokens acc + token_count r;
         block_tokens := <[item.1 := token_count r]> (block_tokens acc);
         contents := <[item.1 := content r]> (contents acc) |}
  end.

(** The dicts and the total before the loop. *)
Definition empty_result : AllResult :=
  {| all_status := "success"; all_total_tokens := 0; block_tokens := ∅; contents := ∅ |}.

Definition timeout_error : exn :=
  Exn RefreshError "Operation timed out. Please try refreshing blocks individually.".

Definition all_error (e : exn) : exn :=
  ExnFrom RefreshError "Failed to refresh all blocks" e.

(** [refresh_all]. Whether the thirty seconds of [asyncio.wait_for] run out
    is the environment's choice: [deadline = Some k] with [k] below the number
    of blocks says they ran out when [k] refreshes were done, the others being
    cancelled. Everything sits in one [try] whose handler wraps any exception,
    the one raised for the timeout included. *)
Definition refresh_all (blocks : list string) (contents_arg : option (gmap string string))
  (deadline : option nat) (w : World) : Py.result AllResult * World :=
  let w0 := with_counter (Counter.reset (counter w)).1 w in
  let timed_out :=
    match deadline with
    | Some k => if (k <? length blocks)%nat then Some k else None
    | None => None
    end in
  match timed_out with
  | Some k => (Raise (all_error timeout_error), (gather (take k blocks) contents_arg w0).2)
  | None =>
      let '(results, w1) := gather blocks contents_arg w0 in
      let r := foldl tally empty_result (zip blocks results) in
      match Counter.set_total_tokens (all_total_tokens r) (counter w1) with
      | (Raise e, c', _) => (Raise (all_error e), with_counter c' w1)
      | (Ok _, c', _) => (Ok r, with_counter c' w1)
      end
  end.

End WithEnv.

(** The token counts of the refreshes that did not raise. *)
Definition ok_counts (results : list (Py.result BlockResult)) : list Z :=
  omap (λ r, match r with Ok b => Some (token_count b) | Raise _ => None end) results.

Definition sum_counts (l : list Z) : Z := foldr Z.add 0 l.






(** Two states of the database that no reference can tell apart: the same
    variables and endpoints, and the same allowed directories once the row of
    the working directory is there. *)
Definition same_view (fs : FileSystem) (d d' : Database) : Prop :=
  variables d = variables d' ∧ endpoints d = endpoints d' ∧
  ensure_default_directory fs (allowed_dirs d)
    = ensure_default_directory fs (allowed_dirs d').

End Refresh.

(** ** A sample installation, used to run the model on concrete inputs *)

Module Sample.

Import Paths Refresh.

(** Files [/app/notes.md], [/app/sub/x.md] and [/etc/passwd] exist; the
    process runs in [/app]. *)
Definition fs0 : FileSystem :=
  {| resolve := parts_of;
     cwd := "/app";
     exists_ := λ p, bool_decide (p = ["app"; "notes.md"] ∨ p = ["app"; "sub"; "x.md"]
                                  ∨ p = ["etc"; "passwd"]);
     is_file := λ _, true;
     entries := λ _, 3%nat;
     read_text := λ _, Ok "file text" |}.

(** A stand-in tokenizer: one token per character. *)
Definition env0 : Env :=
  {| fs := fs0;
     tokenizer := λ s, Ok (Z.of_nat (String.length s));
     api_resource := λ _, Ok "{}";
     session_refs := ∅ |}.

(** One variable, [greeting]; no variable is called [missing]. *)
Definition db0 : Database :=
  {| allowed_dirs := []; variables := {[ "greeting" := "hi there" ]}; endpoints := ∅ |}.

Definition w0 : World := {| db := db0; counter := Counter.init |}.

Definition contents0 : gmap string string :=
  {[ "b1" := "hello"; "b2" := "@[variable:missing]" ]}.


(** A listener that never raises. *)
Definition quiet : Counter.Listener :=
  {| Counter.lname := 0; Counter.lraises := λ _, false |}.

(** [uuid4] drawing 0, 1, 2, ... *)
Definition uuid_seq (n : nat) : Scheduler.UUID := N.of_nat n.

Definition succeeds : nat → Py.result string := λ _, Ok "done".
Definition boom (k : nat) : exn :=
  Exn PlainException (if (k =? 2)%nat then "third failure" else "failure").
Definition fails : nat → Py.result string := λ k, Raise (boom k).

End Sample.

(** ** The error notification service ([error_notification.py]) *)

Module Notifications.

Inductive ErrorSeverity := INFO | WARNING | ERROR | CRITICAL.

Definition severity_eqb (a b : ErrorSeverity) : bool :=
  match a, b with
  | INFO, INFO | WARNING, WARNING | ERROR, ERROR | CRITICAL, CRITICAL => true
  | _, _ => false
  end.

(** [@dataclass ErrorNotification]; the timestamp is the reading of a clock. *)
Record ErrorNotification := {
  message : string;
  severity : ErrorSeverity;
  source : string;
  timestamp : nat;
  details : option (list (string * string));
  error_code : option string
}.

(** A listener: its identity and whether it raises on a notification. *)
Record Listener := { lname : nat; lraises : ErrorNotification → bool }.

Inductive event :=
| Logged (level : ErrorSeverity) (text : string)
| Delivered (listener : nat) (n : ErrorNotification)
| ListenerFailed (listener : nat).

(** The singleton's attributes, and the clock [datetime.now()] reads. *)
Record ErrorNotificationService := {
  _listeners : list Listener;
  _recent_notifications : list ErrorNotification;
  _max_recent : nat;
  now : nat
}.

(** [__init__] *)
Definition init : ErrorNotificationService :=
  {| _listeners := []; _recent_notifications := []; _max_recent := 100; now := 0 |}.

(** [self._listeners.add(callback)] on the set of listeners, for a callable
    (anything else raises [TypeError] before the set is touched). The set holds
    its members weakly; the model describes listeners that are still alive. *)
Definition add_listener (l : Listener) (s : ErrorNotificationService)
  : ErrorNotificationService :=
  if existsb (λ l', Nat.eqb (lname l') (lname l)) (_listeners s) then s
  else {| _listeners := _listeners s ++ [l];
          _recent_notifications := _recent_notifications s;
          _max_recent := _max_recent s; now := now s |}.

(** [self._listeners.discard(callback)] *)
Definition remove_listener (l : Listener) (s : ErrorNotificationService)
  : ErrorNotificationService :=
  {| _listeners := filter (λ l', lname l' ≠ lname l) (_listeners s);
     _recent_notifications := _recent_notifications s;
     _max_recent := _max_recent s; now := now s |}.

(** [append], then [pop(0)] when the list has grown beyond [_max_recent]. *)
Definition remember (n : ErrorNotification) (max_recent : nat)
  (recent : list ErrorNotification) : list ErrorNotification :=
  let recent' := recent ++ [n] in
  if (max_recent <? length recent')%nat then drop 1 recent' else recent'.

(** [notify]: the notification is stamped, remembered, logged at its
    severity and handed to every listener; a listener that raises is logged
    and the others are still served. *)
Definition notify (msg : string) (sev : ErrorSeverity) (src : string)
  (det : option (list (string * string))) (code : option string)
  (s : ErrorNotificationService) : ErrorNotificationService * list event :=
  let n := {| message := msg; severity := sev; source := src; timestamp := now s;
              details := det; error_code := code |} in
  ({| _listeners := _listeners s;
      _recent_notifications := remember n (_max_recent s) (_recent_notifications s);
      _max_recent := _max_recent s; now := S (now s) |},
   Logged sev (src +:+ ": " +:+ msg) ::
   flat_map (λ l, Delivered (lname l) n ::
                  (if lraises l n then [ListenerFailed (lname l)] else []))
            (_listeners s)).

(** The slice [l[-limit:]]: the last [limit] items for a positive [limit]
    (all of them when there are fewer); for a negative one the start index is
    [-limit], counted from the front. *)
Definition slice_from_minus (limit : Z) (l : list ErrorNotification)
  : list ErrorNotification :=
  if 0 <? limit then drop (length l - Z.to_nat limit) l
  else drop (Z.to_nat (- limit)) l.

(** [get_recent_notifications]: both arguments are optional; a [limit] of 0
    is as good as none. *)
Definition get_recent_notifications (limit : option Z) (sev : option ErrorSeverity)
  (s : ErrorNotificationService) : list ErrorNotification :=
  let notifications :=
    match sev with
    | Some v => filter (λ n, severity_eqb (severity n) v = true) (_recent_notifications s)
    | None => _recent_notifications s
    end in
  match limit with
  | Some k => if k =? 0 then notifications else slice_from_minus k notifications
  | None => notifications
  end.

(** A call of [notify], by its arguments. *)
Record notice := {
  n_message : string;
  n_severity : ErrorSeverity;
  n_source : string;
  n_details : option (list (string * string));
  n_code : option string
}.

Definition notify_with (n : notice) (s : ErrorNotificationService)
  : ErrorNotificationService * list event :=
  notify (n_message n) (n_severity n) (n_source n) (n_details n) (n_code n) s.

(** What [notify] makes of the k-th call on a service started at time [t0]. *)
Definition stamped (t0 : nat) (k : nat) (n : notice) : ErrorNotification :=
  {| message := n_message n; severity := n_severity n; source := n_source n;
     timestamp := (t0 + k)%nat; details := n_details n; error_code := n_code n |}.

End Notifications.

(** ** The retry decorator ([utils/retry.py]) *)

Module Retry.

Section WithDelays.

(** The delays are Python floats; all the decorator does with them is to
    multiply them and to sleep, and [time.sleep] rejects a negative one. *)
Variable D : Type.
Variable mul : D → D → D.
Variable negative : D → bool.

Inductive activity :=
| Called (attempt : nat)
| Warned (attempt : nat)
| Slept (d : D)
| GaveUp.

(** The [for attempt in range(retries + 1)] loop of [wrapper]: [todo] turns
    are left, [func attempt] is what the wrapped function does at this call,
    [catches] tells the exceptions listed in [exceptions]. Falling out of the
    loop re-raises the last exception if there is one, else returns [None]. *)
Fixpoint attempts {A} (func : nat → Py.result A) (catches : exn → bool) (retries : Z)
  (backoff : D) (todo : nat) (attempt : nat) (retry_delay : D)
  (last_exception : option exn) : Py.result (option A) * list activity :=
  match todo with
  | O =>
      match last_exception with
      | Some e => (Raise e, [])
      | None => (Ok None, [])
      end
  | S todo' =>
      match func attempt with
      | Ok v => (Ok (Some v), [Called attempt])
      | Raise e =>
          if catches e then
            if Z.of_nat attempt =? retries then (Raise e, [Called attempt; GaveUp])
            else if negative retry_delay then
              (Raise (Exn ValueError "sleep length must be non-negative"),
               [Called attempt; Warned (S attempt)])
            else
              let '(r, tr) := attempts func catches retries backoff todo' (S attempt)
                                (mul retry_delay backoff) (Some e) in
              (r, Called attempt :: Warned (S attempt) :: Slept retry_delay :: tr)
          else (Raise e, [Called attempt])
      end
  end.

(** [retry(retries, delay, backoff, exceptions)(func)(...)] *)
Definition retry {A} (retries : Z) (delay backoff : D) (catches : exn → bool)
  (func : nat → Py.result A) : Py.result (option A) * list activity :=
  attempts func catches retries backoff (Z.to_nat (retries + 1)) 0 delay None.

(** The delays slept before the second, third, ... call: [delay],
    [delay * backoff], ... *)
Fixpoint delays (delay backoff : D) (n : nat) : list D :=
  match n with
  | O => []
  | S n' => delay :: delays (mul delay backoff) backoff n'
  end.

Definition calls (tr : list activity) : list nat :=
  omap (λ a, match a with Called k => Some k | _ => None end) tr.

(** A trace pared down to the calls and the sleeps, in the order in which
    they happened. *)
Inductive move :=
| Call (attempt : nat)
| Sleep (d : D).

Definition moves (tr : list activity) : list move :=
  omap (λ a, match a with
             | Called k => Some (Call k)
             | Slept d => Some (Sleep d)
             | _ => None
             end) tr.

(** [failures] failed calls in a row from call number [attempt] on, each
    followed by its sleep: [delay] after the first, [delay * backoff] after the
    second, and so on. *)
Fixpoint schedule (attempt : nat) (delay backoff : D) (failures : nat) : list move :=
  match failures with
  | O => []
  | S n => Call attempt :: Sleep delay :: schedule (S attempt) (mul delay backoff) backoff n
  end.

Definition sleeps (tr : list activity) : list D :=
  omap (λ a, match a with Slept d => Some d | _ => None end) tr.

End WithDelays.

Arguments Called {D} attempt.
Arguments Warned {D} attempt.
Arguments Slept {D} d.
Arguments GaveUp {D}.
Arguments attempts {D} mul negative {A}.
Arguments retry {D} mul negative {A}.
Arguments delays {D} mul.
Arguments calls {D}.
Arguments sleeps {D}.
Arguments Call {D} attempt.
Arguments Sleep {D} d.
Arguments moves {D}.
Arguments schedule {D} mul.

End Retry.

(** ** References inside fence content ([reference_service.py]) *)

Module References.

Import Paths.

(** A match of [REFERENCE_PATTERN], [\{\{([^:]+):([^}]+)\}\}], at the head of
    [s]: after the two opening braces the longest run without a colon, not
    empty and followed by a colon, then the longest run without a closing
    brace, not empty and followed by two of them. *)
Definition match_here (s : string) : option (string * string * nat) :=
  match s with
  | String "{" (String "{" s1) =>
      match Refresh.span_to ":" s1 with
      | Some (g1, s2) =>
          if String.eqb g1 "" then None
          else match Refresh.span_to "}" s2 with
               | Some (g2, String "}" _) =>
                   if String.eqb g2 "" then None
                   else Some (g1, g2, (String.length g1 + String.length g2 + 5)%nat)
               | _ => None
               end
      | None => None
      end
  | _ => None
  end.

Fixpoint scan (skip : nat) (s : string) : list (string * string) :=
  match s with
  | EmptyString => []
  | String _ s' =>
      match skip with
      | S k => scan k s'
      | O =>
          match match_here s with
          | Some (g1, g2, len) => (g1, g2) :: scan (len - 1) s'
          | None => scan 0 s'
          end
      end
  end.

(** [ReferenceService.extract_references] *)
Definition extract_references (content : string) : list (string * string) :=
  scan 0 content.

(** [c] occurs in [s]. *)
Fixpoint has_char (c : ascii) (s : string) : bool :=
  match s with
  | EmptyString => false
  | String c' s' => Ascii.eqb c' c || has_char c s'
  end.

(** [repr(s)], which is what [%r] formats; a character is a code point
    below 256. The string is put between single quotes, or between double
    quotes when it holds a single quote and no double one. Inside, the quote
    in use and the backslash get a backslash in front; tab, newline and
    carriage return are written [\t], [\n], [\r]; any other character that is
    not printable (below 32, from 127 to 160, and 173) is written [\x] and
    its two hexadecimal digits; the rest stands for itself. *)
Definition hex_digit (n : nat) : ascii :=
  ascii_of_nat (if (n <? 10)%nat then 48 + n else 87 + n).

Definition repr_char (quote c : ascii) : string :=
  let n := nat_of_ascii c in
  let backslash := "092"%char in
  if Ascii.eqb c quote || Ascii.eqb c backslash then String backslash (String c "")
  else if (n =? 9)%nat then String backslash "t"
  else if (n =? 10)%nat then String backslash "n"
  else if (n =? 13)%nat then String backslash "r"
  else if ((n <? 32) || ((127 <=? n) && (n <=? 160)) || (n =? 173))%nat then
    String backslash
      (String "x" (String (hex_digit (n / 16)) (String (hex_digit (n mod 16)) "")))
  else String c "".

Fixpoint repr_body (quote : ascii) (s : string) : string :=
  match s with
  | EmptyString => ""
  | String c s' => repr_char quote c +:+ repr_body quote s'
  end.

Definition repr (s : string) : string :=
  let single := "'"%char in
  let double := "034"%char in
  let quote := if has_char single s && negb (has_char double s) then double else single in
  String quote (repr_body quote s +:+ String quote "").

(** A [FenceReference] as [create_fence_references] builds it. *)
Record FenceReference := {
  fence_id : Z;
  reference_type : ReferenceType;
  reference_value : string
}.

(** The loop of [create_fence_references] over the extracted pairs. The
    [ValueError] of [ReferenceType(ref_type)] for an unknown type leaves the
    loop through the handler around it, which keeps its text as the error:
    ["%r is not a valid %s"] of the value and the name of the class. A
    reference is kept when [is_valid] is true. *)
Fixpoint create_loop (fs : FileSystem) (fid : Z) (pairs : list (string * string))
  (db : Database) : list FenceReference * option string * Database :=
  match pairs with
  | [] => ([], None, db)
  | (ref_type, ref_value) :: pairs' =>
      match Refresh.ReferenceType_of ref_type with
      | None => ([], Some (repr ref_type +:+ " is not a valid ReferenceType"), db)
      | Some t =>
          let '((is_valid, _), db1) := validate_reference fs t ref_value db in
          let '(rest, error, db2) := create_loop fs fid pairs' db1 in
          if truthy is_valid then
            ({| fence_id := fid; reference_type := t; reference_value := ref_value |}
               :: rest, error, db2)
          else (rest, error, db2)
      end
  end.

(** [ReferenceService.create_fence_references] *)
Definition create_fence_references (fs : FileSystem) (fid : Z) (content : string)
  (db : Database) : list FenceReference * option string * Database :=
  create_loop fs fid (extract_references content) db.

(** The text a reference is written as, [{{type:value}}]. *)
Definition braced (ref_type ref_value : string) : string :=
  "{{" +:+ ref_type +:+ ":" +:+ ref_value +:+ "}}".

(** The text [refresh_block] looks for, [@[type:value]]. *)
Definition bracketed (ref_type ref_value : string) : string :=
  "@[" +:+ ref_type +:+ ":" +:+ ref_value +:+ "]".

End References.

(** ** Notions used by the properties of the counter and of the processor *)

Module CounterNotions.

Import Counter.

(** Every block is stored under its own id and its count is not negative. *)
Definition well_formed (c : GlobalTokenCounter) : Prop :=
  ∀ i b, _blocks c !! i = Some b → id b = i ∧ 0 ≤ token_count b.

Definition well_formed_map (m : gmap string TokenBlock) : Prop :=
  ∀ i b, m !! i = Some b → id b = i ∧ 0 ≤ token_count b.

(** How many of the listeners [ls] go by [name]. *)
Definition named (name : nat) (ls : list Listener) : nat :=
  length (List.filter (λ l, Nat.eqb (lname l) name) ls).

Definition is_batch (k : call) : bool :=
  match k with UpdateBlocksBatch _ => true | _ => false end.

(** The updates of a batch issued one by one through [update_block]. *)
Definition one_by_one (updates : list (string * count_arg)) (c : GlobalTokenCounter)
  : GlobalTokenCounter :=
  foldl (λ c u, (update_block u.1 (count_value u.2) c).1.2) c updates.

(** How often listener [name] is called with [total] in a trace. *)
Definition times_called (name : nat) (total : Z) (tr : list event) : nat :=
  length (List.filter
            (λ ev, match ev with
                   | ListenerCalled l t => Nat.eqb l name && (t =? total)
                   | _ => false
                   end) tr).

(** What a client may do to the counter: register a callback or issue a
    mutating call. *)
Inductive action :=
| Register (cb : callback)
| Do (k : call).

Definition perform1 (a : action) (c : GlobalTokenCounter) : GlobalTokenCounter :=
  match a with
  | Register cb => (add_listener cb c).1.2
  | Do k => after k c
  end.

Definition perform (acts : list action) (c : GlobalTokenCounter) : GlobalTokenCounter :=
  foldl (λ c a, perform1 a c) c acts.

End CounterNotions.

Module RefreshNotions.

Import Refresh.

(** The count the counter holds for a block, 0 when it holds none. *)
Definition held (c : Counter.GlobalTokenCounter) (b : string) : Z :=
  match Counter._blocks c !! b with
  | Some blk => Counter.token_count blk
  | None => 0
  end.

(** The counter and the dicts being built agree: block by block on the
    counts, and on the sum. *)
Definition agree (c : Counter.GlobalTokenCounter) (acc : AllResult) : Prop :=
  (∀ b, held c b = default 0 (block_tokens acc !! b)) ∧
  Counter.sum_blocks (Counter._blocks c) = all_total_tokens acc.

End RefreshNotions.

Module NotificationNotions.

Import Notifications.

(** The last [max] items of a list. *)
Definition keep (max : nat) (l : list ErrorNotification) : list ErrorNotification :=
  drop (length l - max) l.

(** What a client may do to the service. *)
Inductive op :=
| Add (l : Listener)
| Remove (l : Listener)
| Notify (n : notice).

Definition run1 (o : op) (s : ErrorNotificationService) : ErrorNotificationService :=
  match o with
  | Add l => add_listener l s
  | Remove l => remove_listener l s
  | Notify n => (notify_with n s).1
  end.

Definition run (ops : list op) (s : ErrorNotificationService) : ErrorNotificationService :=
  foldl (λ s o, run1 o s) s ops.

(** The notifications among the operations, oldest first. *)
Definition notices (ops : list op) : list notice :=
  omap (λ o, match o with Notify n => Some n | _ => None end) ops.

(** The notifications listener [name] is handed in a trace, in their order. *)
Definition handed (name : nat) (tr : list event) : list ErrorNotification :=
  omap (λ ev, match ev with
              | Delivered l n => if Nat.eqb l name then Some n else None
              | _ => None
              end) tr.

(** The names of the listeners in the set. *)
Definition registered (s : ErrorNotificationService) : list nat :=
  lname <$> _listeners s.

#[global] Instance ErrorSeverity_eq_dec : EqDecision ErrorSeverity.
Proof. solve_decision. Defined.

(** The remembered notifications a caller asks for: all of them, or those of
    one severity, in the order in which they were sent. *)
Definition wanted (sev : option ErrorSeverity) (s : ErrorNotificationService)
  : list ErrorNotification :=
  match sev with
  | Some v => filter (λ n, severity n = v) (_recent_notifications s)
  | None => _recent_notifications s
  end.

End NotificationNotions.

Module SchedulerNotions.

Import Scheduler.

Definition finished (t : Task) : Prop :=
  status t = COMPLETED ∨ status t = FAILED.

(** The queue holds each task at most once, and only tasks of the table that
    are still pending. *)
Definition queue_sound (p : BackgroundProcessor) : Prop :=
  NoDup (queue p).*2 ∧
  ∀ e, e ∈ queue p → ∃ t, tasks p !! e.2 = Some t ∧ status t = PENDING.

(** The state of the processor hangs together. *)
Definition sound (uuid4 : nat → UUID) (p : BackgroundProcessor) : Prop :=
  keys_drawn uuid4 p ∧ queue_sound p.

(** A function that raises at its first two calls and returns at the third. *)
Definition flaky : nat → Py.result string :=
  λ k, if (k <? 2)%nat then Raise (Sample.boom k) else Ok "done".

End SchedulerNotions.

(** * Properties *)

(** ** The global token counter *)

Module CounterProps.

Import Counter.

Lemma sum_blocks_empty : sum_blocks ∅ = 0.
Proof. unfold sum_blocks. by rewrite map_fold_empty. Qed.

Lemma sum_blocks_delete (m : gmap string TokenBlock) i b :
  m !! i = Some b → sum_blocks m = token_count b + sum_blocks (delete i m).
Proof.
  intros Hi. unfold sum_blocks.
  apply (map_fold_delete_L (λ _ b acc, token_count b + acc)); [|done].
  intros; lia.
Qed.

Lemma remove_block_consistent i c :
  consistent c → consistent (remove_block i c).1.2.
Proof.
  unfold consistent, remove_block. intros Hc.
  destruct (_blocks c !! i) as [b|] eqn:Hi; simpl; [|done].
  rewrite Hc, (sum_blocks_delete _ _ _ Hi). lia.
Qed.

Lemma after_consistent k c :
  is_set_total k = false → consistent c → consistent (after k c).
Proof.
  intros Hk Hc. destruct k as [i n|us|i|t|]; unfold after; simpl.
  - unfold update_block. destruct (n <? 0); simpl; [done|reflexivity].
  - unfold update_blocks_batch. destruct us as [|u us]; [done|].
    destruct (existsb _ _); simpl; [done|reflexivity].
  - by apply remove_block_consistent.
  - discriminate.
  - unfold consistent; simpl. by rewrite sum_blocks_empty.
Qed.

Lemma init_consistent : consistent init.
Proof. unfold consistent; simpl. by rewrite sum_blocks_empty. Qed.

Lemma states_after_consistent ks : ∀ c,
  Forall (λ k, is_set_total k = false) ks → consistent c →
  Forall consistent (states_after ks c).
Proof.
  induction ks as [|k ks IH]; intros c Hks Hc; simpl; [constructor|].
  inversion Hks; subst. constructor.
  - by apply after_consistent.
  - apply IH; [done|]. by apply after_consistent.
Qed.

(** C1. Along every sequence of [update_block], [update_blocks_batch] and
    [remove_block] calls (and [reset]s) issued on a fresh counter, with no
    [set_total_tokens] among them, the total equals the sum of the token counts
    of the blocks in the map after each call. No assumption on the counts is
    needed: a call with a negative count raises and leaves the state as it
    was. *)
Theorem total_is_sum_of_blocks (ks : list call) :
  Forall (λ k, is_set_total k = false) ks →
  Forall consistent (states_after ks init).
Proof. intros Hks. apply states_after_consistent; [done|apply init_consistent]. Qed.

Lemma total_is_sum_of_blocks_witness :
  let ks := [UpdateBlock "a" 3; UpdateBlocksBatch [("b", IntCount 2); ("a", IntCount 7)];
             RemoveBlock "a"; RemoveBlock "zz"; UpdateBlock "b" 0] in
  Forall (λ k, is_set_total k = false) ks ∧ Forall consistent (states_after ks init).
Proof.
  intros ks.
  assert (H : Forall (λ k, is_set_total k = false) ks) by (repeat constructor).
  split; [exact H | exact (total_is_sum_of_blocks ks H)].
Defined.

(** *** Listeners *)

(** The call of listener [l] heads the events that [l] contributes to a
    trace built by [flat_map] over the listeners. *)
Ltac called_first l :=
  apply list_elem_of_In, in_flat_map; exists l;
  split; [by apply list_elem_of_In | by left].

Lemma notify_calls_all c l :
  l ∈ _listeners c →
  ListenerCalled (lname l) (_total_tokens c) ∈ _notify_listeners c.
Proof. intros Hl. unfold _notify_listeners. by called_first l. Qed.

(** Every mutator but the batch update calls each registered listener with
    the new total when it succeeds. *)
Lemma listeners_notified k c c' tr l :
  (∀ us, k ≠ UpdateBlocksBatch us) →
  step k c = (Ok tt, c', tr) → l ∈ _listeners c' →
  ListenerCalled (lname l) (_total_tokens c') ∈ tr.
Proof.
  intros Hk Hstep Hl. destruct k as [i n|us|i|t|]; simpl in Hstep.
  - unfold update_block in Hstep. destruct (n <? 0); [discriminate|].
    injection Hstep as <- <-. by apply notify_calls_all.
  - by destruct (Hk us).
  - unfold remove_block in Hstep. destruct (_blocks c !! i); [|discriminate].
    injection Hstep as <- <-. by apply notify_calls_all.
  - unfold set_total_tokens in Hstep. destruct (t <? 0); [discriminate|].
    injection Hstep as <- <-. simpl in *. by called_first l.
  - injection Hstep as <- <-. simpl in *. by called_first l.
Qed.

(** C6. [update_blocks_batch] changes the total and calls no listener: on a
    counter with one registered listener and no block, the batch [{"a": 5}]
    succeeds, the total goes from 0 to 5, and the trace of the call is
    empty. *)
Theorem batch_update_notifies_nobody :
  let c := (add_listener (Callable Sample.quiet) init).1.2 in
  _listeners c = [Sample.quiet] ∧ _total_tokens c = 0 ∧
  ∃ c', step (UpdateBlocksBatch [("a", IntCount 5)]) c = (Ok tt, c', []) ∧
        _total_tokens c' = 5 ∧ _listeners c' = [Sample.quiet].
Proof.
  simpl. split; [done|]. split; [done|].
  eexists. split; [reflexivity|]. split; [|done].
  vm_compute. reflexivity.
Qed.

(** *** Blocks with count 0 *)

Lemma update_block_zero_removes i c :
  (update_block i 0 c).1.1 = Ok tt ∧
  get_block_count i (update_block i 0 c).1.2 = (0, []).
Proof.
  unfold update_block, get_block_count; simpl. split; [done|].
  rewrite lookup_delete_eq. rewrite bool_decide_eq_false_2; [done|].
  by intros [? ?].
Qed.

Lemma update_block_positive i n c :
  all_positive c → all_positive (update_block i n c).1.2.
Proof.
  unfold all_positive, update_block. intros Hc j b.
  destruct (n <? 0) eqn:Hn; simpl; [apply Hc|].
  destruct (n =? 0) eqn:Hz; simpl.
  - intros Hj. apply lookup_delete_Some in Hj as [_ Hj]. by eapply Hc.
  - intros Hj. apply lookup_insert_Some in Hj as [[_ <-]|[_ Hj]]; simpl; [lia|].
    by eapply Hc.
Qed.

(** C7. [update_blocks_batch] stores a zero count: the batch [{"a": 0}] on a
    fresh counter succeeds and leaves block [a] in the map with count 0, where
    [update_block "a" 0] leaves no block. *)
Theorem batch_update_keeps_zero_block :
  ∃ c', update_blocks_batch [("a", IntCount 0)] init = (Ok tt, c', []) ∧
        _blocks c' !! "a" = Some {| id := "a"; token_count := 0 |} ∧
        _blocks (update_block "a" 0 init).1.2 !! "a" = None.
Proof.
  eexists. split; [reflexivity|]. split; vm_compute; reflexivity.
Qed.

(** *** Reading a count *)

(** C10. [get_block_count] answers for every block id, without raising and
    without reporting an error: the stored count when the block is in the map,
    0 when it is not, as for an id never added or an id that was removed. *)
Theorem get_block_count_total (i : string) (c : GlobalTokenCounter) :
  get_block_count i c =
    (match _blocks c !! i with Some b => token_count b | None => 0 end, []) ∧
  get_block_count i init = (0, []) ∧
  get_block_count i (after (RemoveBlock i) c) = (0, []).
Proof.
  assert (Hgen : ∀ c0, get_block_count i c0 =
    (match _blocks c0 !! i with Some b => token_count b | None => 0 end, [])).
  { intros c0. unfold get_block_count, dict_getitem.
    destruct (_blocks c0 !! i) as [b|] eqn:Hi.
    - rewrite bool_decide_eq_true_2; [done|by eexists].
    - rewrite bool_decide_eq_false_2; [done|]. by intros [? ?]. }
  split; [apply Hgen|]. split.
  - rewrite Hgen. simpl. by rewrite lookup_empty.
  - rewrite Hgen. unfold after; simpl. unfold remove_block.
    destruct (_blocks c !! i) as [b|] eqn:Hi; simpl.
    + by rewrite lookup_delete_eq.
    + by rewrite Hi.
Qed.

End CounterProps.

(** ** The background processor *)

Module SchedulerProps.

Import Scheduler.

Lemma attempts_eq fuel calls t :
  attempts fuel calls t =
  if (retries t <? max_retries t)%nat then
    match fuel with
    | O => None
    | S fuel' =>
        match func t calls with
        | Ok v => Some (set_completed v t, [Invoked (id t) calls])
        | Raise e =>
            let t' := incr_retries t in
            if (max_retries t' <=? retries t')%nat then
              Some (set_failed e t', [Invoked (id t) calls; TaskFailed (id t)])
            else
              match attempts fuel' (S calls) t' with
              | None => None
              | Some (t'', tr) =>
                  Some (t'', Invoked (id t) calls :: Warned (id t) (retries t') ::
                             Slept (2 ^ (Z.of_nat (retries t') - 1)) :: tr)
              end
        end
    end
  else
    Some (set_failed (Exn PlainException "Max retries exceeded") t, [TaskFailed (id t)]).
Proof. destruct fuel; reflexivity. Qed.

(** *** The bounded loops run to their end *)

Lemma parent_below pos : ((pos - 1) / 2 ≤ pos - 1)%nat.
Proof. apply Nat.Div0.div_le_upper_bound. lia. Qed.

Lemma siftdown_S fuel heap startpos pos :
  siftdown (S fuel) heap startpos pos =
  if (startpos <? pos)%nat then
    match heap !! pos, heap !! ((pos - 1) / 2)%nat with
    | Some newitem, Some parent =>
        match entry_lt newitem parent with
        | Raise e => (Raise e, heap)
        | Ok false => (Ok tt, heap)
        | Ok true =>
            siftdown fuel (<[((pos - 1) / 2)%nat := newitem]> (<[pos := parent]> heap))
                     startpos ((pos - 1) / 2)%nat
        end
    | _, _ => (Ok tt, heap)
    end
  else (Ok tt, heap).
Proof. reflexivity. Qed.

(** Any fuel from [pos] on gives [siftdown] the same result. *)
Lemma siftdown_fuel : ∀ f1 f2 heap startpos pos,
  (pos ≤ f1)%nat → (pos ≤ f2)%nat →
  siftdown f1 heap startpos pos = siftdown f2 heap startpos pos.
Proof.
  induction f1 as [|f1 IH]; intros f2 heap startpos pos H1 H2.
  - assert (pos = 0%nat) as -> by lia.
    destruct f2; [done|]. rewrite siftdown_S. by destruct startpos.
  - destruct f2 as [|f2].
    + assert (pos = 0%nat) as -> by lia. rewrite siftdown_S. by destruct startpos.
    + rewrite !siftdown_S. destruct (Nat.ltb_spec startpos pos); [|done].
      destruct (heap !! pos) as [newitem|]; [|done].
      destruct (heap !! ((pos - 1) / 2)%nat) as [parent|]; [|done].
      destruct (entry_lt newitem parent) as [[|]|]; try done.
      pose proof (parent_below pos). apply IH; lia.
Qed.

(** The retry loop never runs out of fuel. *)
Lemma attempts_total : ∀ fuel calls t,
  (max_retries t - retries t ≤ fuel)%nat → is_Some (attempts fuel calls t).
Proof.
  induction fuel as [|fuel IH]; intros calls t Hfuel; rewrite attempts_eq;
    destruct (Nat.ltb_spec (retries t) (max_retries t)); try (by eexists); [lia|].
  destruct (func t calls); [by eexists|]. cbv zeta.
  destruct (_ <=? _)%nat eqn:Hle; [by eexists|].
  destruct (IH (S calls) (incr_retries t)) as [[t' tr] ->]; [simpl; lia|].
  by eexists.
Qed.

Lemma run_task_total t : is_Some (run_task t).
Proof. apply attempts_total. lia. Qed.

Lemma process_task_total u p : is_Some (process_task u p).
Proof.
  unfold process_task. destruct (tasks p !! u) as [t|]; [|by eexists].
  destruct (run_task_total (set_running (clock p) t)) as [[t2 tr] ->].
  destruct (task_done _) as [[?|?] ?]; by eexists.
Qed.

Lemma worker_total p : is_Some (_worker p).
Proof.
  unfold _worker. destruct (workers p); [by eexists|].
  destruct (queue p); [by eexists|].
  destruct (heappop _) as [[?|?] ?]; [apply process_task_total|by eexists].
Qed.

(** The retry loop on a function that raises at every invocation. *)
Lemma attempts_always_raise (e : nat → exn) : ∀ fuel calls t,
  (∀ k, func t k = Raise (e k)) →
  (retries t < max_retries t)%nat →
  (max_retries t - retries t ≤ fuel)%nat →
  ∃ t' tr, attempts fuel calls t = Some (t', tr) ∧
    status t' = FAILED ∧
    retries t' = max_retries t ∧
    error t' = Some (e (calls + (max_retries t - retries t) - 1)%nat) ∧
    invocations tr = seq calls (max_retries t - retries t) ∧
    sleeps tr = backoff (S (retries t)) (max_retries t - retries t - 1) ∧
    max_retries t' = max_retries t ∧
    moves tr = schedule calls (S (retries t)) (max_retries t - retries t - 1)
                 ++ [Call (calls + (max_retries t - retries t) - 1)%nat].
Proof.
  induction fuel as [|fuel IH]; intros calls t He Hlt Hfuel; [lia|].
  rewrite attempts_eq.
  destruct (Nat.ltb_spec (retries t) (max_retries t)) as [_|?]; [|lia].
  rewrite He. cbv zeta.
  destruct (Nat.leb_spec (max_retries (incr_retries t)) (retries (incr_retries t)))
    as [Hle|Hgt]; simpl in Hle |- || simpl in Hgt |-.
  - eexists _, _. split; [reflexivity|]. simpl.
    replace (max_retries t - retries t)%nat with 1%nat by lia.
    repeat split; try done; try (f_equal; lia).
    + f_equal. f_equal. lia.
    + simpl. do 2 f_equal. lia.
  - destruct (IH (S calls) (incr_retries t))
      as (t' & tr & Hrun & Hst & Hre & Her & Hin & Hsl & Hmx & Hmv);
      simpl; [done|lia|lia|].
    rewrite Hrun. eexists _, _. split; [reflexivity|]. simpl in *.
    repeat split; try done.
    + rewrite Her. f_equal. f_equal. lia.
    + rewrite Hin.
      replace (max_retries t - retries t)%nat with (S (max_retries t - S (retries t))) by lia.
      reflexivity.
    + rewrite Hsl. unfold backoff.
      replace (max_retries t - retries t - 1)%nat
        with (S (max_retries t - S (retries t) - 1)) by lia.
      simpl. f_equal. lia.
    + rewrite Hmv.
      replace (max_retries t - retries t - 1)%nat
        with (S (max_retries t - S (retries t) - 1)) by lia.
      simpl. do 2 f_equal; [f_equal; lia|]. do 3 f_equal. lia.
Qed.

Lemma always_raising_task_processed (p : BackgroundProcessor) (u : UUID) (t : Task)
  (e : nat → exn) :
  tasks p !! u = Some t →
  retries t = 0%nat →
  (0 < max_retries t)%nat →
  (∀ k, func t k = Raise (e k)) →
  ∃ p' tr t',
    process_task u p = Some (p', tr) ∧
    get_task u p' = Some t' ∧
    status t' = FAILED ∧
    retries t' = max_retries t ∧
    error t' = Some (e (max_retries t - 1)%nat) ∧
    invocations tr = seq 0 (max_retries t) ∧
    sleeps tr = backoff 1 (max_retries t - 1) ∧
    queue p' = queue p ∧
    moves tr = schedule 0 1 (max_retries t - 1) ++ [Call (max_retries t - 1)].
Proof.
  intros Hu Hr Hm He. unfold process_task. rewrite Hu.
  destruct (attempts_always_raise e (max_retries t) 0 (set_running (clock p) t))
    as (t' & tr & Hrun & Hst & Hre & Her & Hin & Hsl & Hmx & Hmv);
    simpl; [done|lia|lia|].
  simpl in *. rewrite Hr in *. rewrite Nat.sub_0_r in *.
  unfold run_task. simpl. rewrite Hr, Nat.sub_0_r, Hrun.
  assert (Hinv : ∀ tr', invocations (tr ++ tr') = invocations tr ++ invocations tr').
  { intros tr'. unfold invocations. by rewrite omap_app. }
  assert (Hslp : ∀ tr', sleeps (tr ++ tr') = sleeps tr ++ sleeps tr').
  { intros tr'. unfold sleeps. by rewrite omap_app. }
  assert (Hmvs : ∀ tr', moves (tr ++ tr') = moves tr ++ moves tr').
  { intros tr'. unfold moves. by rewrite omap_app. }
  unfold task_done; simpl.
  destruct (unfinished_tasks p); simpl;
    eexists _, _, _; (split; [reflexivity|]); unfold get_task; simpl;
    rewrite lookup_insert_eq; (split; [reflexivity|]); simpl;
    rewrite ?Hinv, ?Hslp, ?Hmvs; simpl; rewrite ?app_nil_r; done.
Qed.

(** C3, as the code has it. When a worker takes off the queue a task as
    [submit] made it (no retries yet, a positive [max_retries]) whose function
    raises at every invocation, it invokes the function exactly [max_retries]
    times in all: the first attempt and [max_retries - 1] retries. Between the
    failed attempt number k and the next invocation it sleeps [1 * 2^(k-1)]
    seconds, for k from 1 to [max_retries - 1], and nothing is slept after the
    last failure: invocations and sleeps alternate, the last invocation
    closing the run. [retries] ends equal to [max_retries]; the task ends
    FAILED, carrying the exception of the last invocation; and the queue is
    left as the removal left it: the task is not put back. *)
Theorem always_raising_task_fails (p : BackgroundProcessor) (u : UUID) (t : Task)
  (e : nat → exn) (prio : Z) (q' : list entry) :
  (0 < workers p)%nat →
  heappop (queue p) = (Ok (prio, u), q') →
  tasks p !! u = Some t →
  retries t = 0%nat →
  (0 < max_retries t)%nat →
  (∀ k, func t k = Raise (e k)) →
  ∃ p' tr t',
    _worker p = Some (p', tr) ∧
    get_task u p' = Some t' ∧
    status t' = FAILED ∧
    retries t' = max_retries t ∧
    error t' = Some (e (max_retries t - 1)%nat) ∧
    moves tr = schedule 0 1 (max_retries t - 1) ++ [Call (max_retries t - 1)] ∧
    invocations tr = seq 0 (max_retries t) ∧
    sleeps tr = backoff 1 (max_retries t - 1) ∧
    queue p' = q'.
Proof.
  intros Hw Hpop Hu Hr Hm He. unfold _worker.
  destruct (workers p) as [|w]; [lia|].
  destruct (queue p) as [|x q] eqn:Hq; [discriminate|].
  rewrite Hpop. simpl.
  destruct (always_raising_task_processed (with_queue q' (unfinished_tasks p) p) u t e)
    as (p' & tr & t' & Hproc & Hget & Hst & Hre & Her & Hin & Hsl & Hqu & Hmv);
    try done.
  exists p', tr, t'. split; [exact Hproc|]. done.
Qed.

Lemma always_raising_task_fails_witness :
  let p := start (submit Sample.uuid_seq Sample.fails MEDIUM (new 5)).2 in
  let t := new_Task 0%N Sample.fails MEDIUM in
  (0 < workers p)%nat ∧
  heappop (queue p) = (Ok (1, 0%N), []) ∧
  tasks p !! 0%N = Some t ∧ retries t = 0%nat ∧ (0 < max_retries t)%nat ∧
  (∀ k, func t k = Raise (Sample.boom k)) ∧
  ∃ p' tr t',
    _worker p = Some (p', tr) ∧
    get_task 0%N p' = Some t' ∧
    status t' = FAILED ∧
    retries t' = max_retries t ∧
    error t' = Some (Sample.boom (max_retries t - 1)%nat) ∧
    moves tr = schedule 0 1 (max_retries t - 1) ++ [Call (max_retries t - 1)] ∧
    invocations tr = seq 0 (max_retries t) ∧
    sleeps tr = backoff 1 (max_retries t - 1) ∧
    queue p' = [].
Proof.
  intros p t.
  assert (H0 : (0 < workers p)%nat) by (simpl; lia).
  assert (Hp : heappop (queue p) = (Ok (1, 0%N), [])) by reflexivity.
  assert (H1 : tasks p !! 0%N = Some t) by reflexivity.
  assert (H2 : retries t = 0%nat) by reflexivity.
  assert (H3 : (0 < max_retries t)%nat) by (simpl; lia).
  assert (H4 : ∀ k, func t k = Raise (Sample.boom k)) by reflexivity.
  repeat (split; [assumption|]).
  exact (always_raising_task_fails p 0%N t Sample.boom 1 [] H0 Hp H1 H2 H3 H4).
Defined.

(** The default task, run: with [max_retries] 3 a function that always
    raises is invoked three times, the first attempt and two retries, with
    sleeps of 1 and 2 seconds in between and none after the third failure. It
    is not retried three times: there is no fourth invocation and no third
    sleep. *)
Lemma always_raising_task_is_retried_twice :
  let p := start (submit Sample.uuid_seq Sample.fails MEDIUM (new 5)).2 in
  ∃ p' tr,
    _worker p = Some (p', tr) ∧
    tr = [Invoked 0%N 0; Warned 0%N 1; Slept 1;
          Invoked 0%N 1; Warned 0%N 2; Slept 2;
          Invoked 0%N 2; TaskFailed 0%N] ∧
    (max_retries <$> get_task 0%N p') = Some 3%nat ∧
    (status <$> get_task 0%N p') = Some FAILED ∧
    length (invocations tr) ≠ 4%nat ∧
    length (sleeps tr) ≠ 3%nat.
Proof.
  eexists _, _. split; [vm_compute; reflexivity|].
  split; [reflexivity|]. split; [reflexivity|]. split; [reflexivity|].
  split; simpl; lia.
Qed.

(** *** Priorities *)

(** The scenario of the specification: LOW, HIGH, MEDIUM submitted in this
    order are taken off the queue as HIGH, MEDIUM, LOW. *)
Example three_priorities_in_order :
  let p1 := (submit Sample.uuid_seq Sample.succeeds LOW (new 5)).2 in
  let p2 := (submit Sample.uuid_seq Sample.succeeds HIGH p1).2 in
  let p3 := (submit Sample.uuid_seq Sample.succeeds MEDIUM p2).2 in
  ∃ q1 q2,
    heappop (queue p3) = (Ok (0, 1%N), q1) ∧
    heappop q1 = (Ok (1, 2%N), q2) ∧
    heappop q2 = (Ok (2, 0%N), []).
Proof. eexists _, _. repeat split; vm_compute; reflexivity. Qed.

(** Whatever the draws of [uuid4], as long as the first two differ: on a new
    processor the second of two submissions with one priority raises. *)
Lemma second_submit_same_priority_raises (uuid4 : nat → UUID) f g prio n :
  uuid4 0%nat ≠ uuid4 1%nat →
  (submit uuid4 g prio (submit uuid4 f prio (new n)).2).1 =
    Raise (Exn TypeError "'<' not supported between instances of 'Task' and 'Task'").
Proof.
  intros Hne. unfold submit, heappush; simpl.
  unfold entry_lt; simpl. rewrite Z.eqb_refl.
  destruct (N.eqb_spec (uuid4 1%nat) (uuid4 0%nat)) as [Heq|_]; [by destruct Hne|].
  reflexivity.
Qed.

(** Two tasks submitted with the same priority: with the first still
    pending, the second [submit] raises [TypeError], the comparison of the two
    queue tuples falling through to the [Task] objects, which have no ordering.
    The task is in the table and its tuple at the end of the heap list, but it
    was not counted as queued. *)
Example equal_priority_submit_raises :
  let p1 := (submit Sample.uuid_seq Sample.succeeds MEDIUM (new 5)).2 in
  let '(r, p2) := submit Sample.uuid_seq Sample.succeeds MEDIUM p1 in
  r = Raise (Exn TypeError "'<' not supported between instances of 'Task' and 'Task'") ∧
  queue p2 = [(1, 0%N); (1, 1%N)] ∧
  unfinished_tasks p2 = 1%nat ∧
  is_Some (get_task 1%N p2).
Proof. vm_compute. repeat split. by eexists. Qed.

(** C2. Tasks of equal priority break the order of the queue. Three tasks
    0, 1, 2 are submitted before the workers start, then a worker takes three
    turns.

    With MEDIUM, MEDIUM, MEDIUM the first turn raises [TypeError] inside
    [queue.get()] and the tuple of task 0, the one submitted first, is gone
    from the queue; the next turns run task 1, then task 2. Task 0 is never
    dequeued: it stays PENDING with the queue empty, so among equal priorities
    the first in is not the first out.

    With HIGH, LOW, LOW all three submissions are accepted, and the same
    happens: the first turn raises, the HIGH task is lost, and the two LOW
    tasks run while the HIGH one stays PENDING for good. *)
Theorem equal_priorities_lose_the_first_task :
  let type_error :=
    Exn TypeError "'<' not supported between instances of 'Task' and 'Task'" in
  let outcome prios :=
    let submitted :=
      exec Sample.uuid_seq (map (Submit Sample.succeeds) prios ++ [Start]) (new 5) in
    ∃ p1 p2 p3 tr2 tr3,
      queue submitted = zip (priority_value <$> prios) [0%N; 1%N; 2%N] ∧
      _worker submitted = Some (p1, [WorkerError type_error]) ∧
      _worker p1 = Some (p2, tr2) ∧
      _worker p2 = Some (p3, tr3) ∧
      served (tr2 ++ tr3) = [1%N; 2%N] ∧
      queue p3 = [] ∧
      (status <$> get_task 0%N p3) = Some PENDING ∧
      (status <$> get_task 1%N p3) = Some COMPLETED ∧
      (status <$> get_task 2%N p3) = Some COMPLETED in
  outcome [MEDIUM; MEDIUM; MEDIUM] ∧
  outcome [HIGH; LOW; LOW] ∧
  (submit Sample.uuid_seq Sample.succeeds LOW
     (exec Sample.uuid_seq [Submit Sample.succeeds HIGH; Submit Sample.succeeds LOW]
        (new 5))).1 = Ok 2%N.
Proof.
  cbv zeta. split; [|split; [|vm_compute; reflexivity]];
    eexists _, _, _, _, _;
    (split; [vm_compute; reflexivity|]);
    (split; [vm_compute; reflexivity|]);
    (split; [vm_compute; reflexivity|]);
    (split; [vm_compute; reflexivity|]);
    (split; [vm_compute; reflexivity|]);
    (split; [vm_compute; reflexivity|]);
    (split; [vm_compute; reflexivity|]);
    split; vm_compute; reflexivity.
Qed.

(** *** The task table *)

Section TaskTable.

Variable uuid4 : nat → UUID.

(** Draws of [uuid4] do not repeat. *)
Hypothesis uuid4_inj : ∀ i j, uuid4 i = uuid4 j → i = j.

Lemma process_task_table u p p' tr :
  process_task u p = Some (p', tr) →
  uuid_calls p' = uuid_calls p ∧
  ∀ v, is_Some (tasks p' !! v) ↔ is_Some (tasks p !! v).
Proof.
  unfold process_task. destruct (tasks p !! u) as [t|] eqn:Hu.
  - destruct (run_task _) as [[t2 tr2]|]; [|discriminate].
    unfold task_done; simpl.
    destruct (unfinished_tasks p); simpl; intros [= <- <-]; simpl;
      (split; [done|]); intros v;
      (destruct (decide (u = v)) as [->|Hne];
        [rewrite lookup_insert_eq, Hu; split; intros _; by eexists
        |by rewrite lookup_insert_ne]).
  - by intros [= <- <-].
Qed.

Lemma worker_table p p' tr :
  _worker p = Some (p', tr) →
  uuid_calls p' = uuid_calls p ∧
  ∀ v, is_Some (tasks p' !! v) ↔ is_Some (tasks p !! v).
Proof.
  unfold _worker. destruct (workers p); [by intros [= <- <-]|].
  destruct (queue p) as [|x q] eqn:Hq; [by intros [= <- <-]|].
  destruct (heappop (x :: q)) as [[item|e] q'].
  - intros H. by apply process_task_table in H.
  - by intros [= <- <-].
Qed.

Lemma submit_table f prio p :
  uuid_calls (submit uuid4 f prio p).2 = S (uuid_calls p) ∧
  tasks (submit uuid4 f prio p).2 =
    <[uuid4 (uuid_calls p) := new_Task (uuid4 (uuid_calls p)) f prio]> (tasks p).
Proof.
  unfold submit. destruct (heappush _ _) as [[?|?] ?]; done.
Qed.

Lemma exec1_table o p :
  (uuid_calls p ≤ uuid_calls (exec1 uuid4 o p))%nat ∧
  (keys_drawn uuid4 p → keys_drawn uuid4 (exec1 uuid4 o p)) ∧
  ∀ v, is_Some (tasks p !! v) → is_Some (tasks (exec1 uuid4 o p) !! v).
Proof.
  destruct o as [f prio| | |]; simpl.
  - destruct (submit_table f prio p) as [Hc Ht]. rewrite Hc.
    split; [lia|]. split.
    + intros Hk u. rewrite Hc, Ht. intros Hu.
      destruct (decide (uuid4 (uuid_calls p) = u)) as [<-|Hne].
      * exists (uuid_calls p). split; [lia|done].
      * rewrite lookup_insert_ne in Hu by done.
        destruct (Hk u Hu) as (k & ? & ?). exists k. split; [lia|done].
    + intros v Hv. rewrite Ht.
      destruct (decide (uuid4 (uuid_calls p) = v)) as [<-|Hne].
      * rewrite lookup_insert_eq. by eexists.
      * by rewrite lookup_insert_ne.
  - destruct (_worker p) as [[p' tr]|] eqn:Hw; [|by repeat split; try lia].
    apply worker_table in Hw as [Hc Ht]. rewrite Hc.
    split; [lia|]. split.
    + intros Hk u Hu. rewrite Hc. apply Hk. by apply Ht.
    + intros v Hv. by apply Ht.
  - unfold start. destruct (_running p); repeat split; simpl; try done; lia.
  - repeat split; simpl; try done; lia.
Qed.

Lemma exec_table os : ∀ p,
  (keys_drawn uuid4 p → keys_drawn uuid4 (exec uuid4 os p)) ∧
  ∀ v, is_Some (tasks p !! v) → is_Some (tasks (exec uuid4 os p) !! v).
Proof.
  induction os as [|o os IH]; intros p; simpl; [done|].
  destruct (exec1_table o p) as (_ & Hk & Hv).
  destruct (IH (exec1 uuid4 o p)) as [Hk' Hv'].
  split; [auto|]. intros v ?. apply Hv', Hv. done.
Qed.

Lemma new_keys_drawn n : keys_drawn uuid4 (new n).
Proof. intros u [t Ht]. simpl in Ht. by rewrite lookup_empty in Ht. Qed.

(** C9. On every state the processor can be in (any sequence of submissions,
    worker turns, starts and stops from a new processor), [submit] draws an
    identifier that is not yet a key of the task table and stores under it a
    task with status PENDING, no retries and [max_retries] 3; when it returns,
    it returns that identifier; and whatever happens afterwards, [get_task] on
    that identifier finds a task. *)
Theorem submit_stores_pending_task (n : nat) (os : list op)
  (f : nat → Py.result string) (prio : TaskPriority) :
  let p := exec uuid4 os (new n) in
  let task_id := uuid4 (uuid_calls p) in
  get_task task_id p = None ∧
  (∃ t, get_task task_id (submit uuid4 f prio p).2 = Some t ∧
        id t = task_id ∧ status t = PENDING ∧
        retries t = 0%nat ∧ max_retries t = 3%nat) ∧
  (∀ v, (submit uuid4 f prio p).1 = Ok v → v = task_id) ∧
  ∀ os', get_task task_id (exec uuid4 os' (submit uuid4 f prio p).2) ≠ None.
Proof.
  intros p task_id.
  assert (Hk : keys_drawn uuid4 p) by (apply exec_table, new_keys_drawn).
  destruct (submit_table f prio p) as [Hc Ht].
  assert (Hstored : get_task task_id (submit uuid4 f prio p).2
                    = Some (new_Task task_id f prio)).
  { unfold get_task. rewrite Ht. apply lookup_insert_eq. }
  split; [|split; [|split]].
  - unfold get_task. destruct (tasks p !! task_id) as [t|] eqn:Hl; [|done].
    destruct (Hk task_id) as (k & Hlt & Heq); [by eexists|].
    apply uuid4_inj in Heq. lia.
  - eexists. split; [exact Hstored|]. done.
  - intros v. unfold submit. fold task_id.
    destruct (heappush _ _) as [[?|?] ?]; simpl; congruence.
  - intros os' Hnone.
    destruct (exec_table os' (submit uuid4 f prio p).2) as [_ Hv].
    destruct (Hv task_id) as [t Hsome]; [by eexists|].
    unfold get_task in Hnone. congruence.
Qed.

End TaskTable.

Lemma submit_stores_pending_task_witness :
  let os := [Submit Sample.fails HIGH; Start; Worker; Submit Sample.succeeds LOW] in
  let p := exec Sample.uuid_seq os (new 5) in
  let task_id := Sample.uuid_seq (uuid_calls p) in
  (∀ i j, Sample.uuid_seq i = Sample.uuid_seq j → i = j) ∧
  get_task task_id p = None ∧
  (∃ t, get_task task_id (submit Sample.uuid_seq Sample.succeeds MEDIUM p).2 = Some t ∧
        id t = task_id ∧ status t = PENDING ∧
        retries t = 0%nat ∧ max_retries t = 3%nat) ∧
  (∀ v, (submit Sample.uuid_seq Sample.succeeds MEDIUM p).1 = Ok v → v = task_id) ∧
  ∀ os', get_task task_id
           (exec Sample.uuid_seq os' (submit Sample.uuid_seq Sample.succeeds MEDIUM p).2)
         ≠ None.
Proof.
  intros os p task_id.
  assert (Hinj : ∀ i j, Sample.uuid_seq i = Sample.uuid_seq j → i = j).
  { unfold Sample.uuid_seq. intros i j H. lia. }
  split; [exact Hinj|].
  exact (submit_stores_pending_task Sample.uuid_seq Hinj 5 os Sample.succeeds MEDIUM).
Defined.

End SchedulerProps.

(** ** Allowed directories and file references *)

Module PathsProps.

Import Paths.

Section AllowList.

Variable fs : FileSystem.



Lemma ensure_default_has_cwd dirs :
  existsb (λ d, String.eqb (path d) (cwd fs)) (ensure_default_directory fs dirs) = true.
Proof.
  unfold ensure_default_directory.
  destruct (existsb _ dirs) eqn:Hex; [done|].
  rewrite existsb_app, Hex. simpl. by rewrite String.eqb_refl.
Qed.

Lemma ensure_default_idempotent dirs :
  ensure_default_directory fs (ensure_default_directory fs dirs)
  = ensure_default_directory fs dirs.
Proof.
  unfold ensure_default_directory at 1. by rewrite ensure_default_has_cwd.
Qed.



(** For a file, whatever [is_path_allowed] answers, [validate_reference]
    hands back a true [is_valid] and no error. *)
Lemma validate_reference_file_never_rejects value db :
  truthy (validate_reference fs FILE value db).1.1 = true ∧
  (validate_reference fs FILE value db).1.2 = None.
Proof.
  unfold validate_reference.
  destruct (is_path_allowed fs value (allowed_dirs db)) as [answer dirs']. done.
Qed.

End AllowList.

(** C8. [validate_reference] does not reject a file outside the allowed
    directories. With the working directory [/app] as the only allowed
    directory, [is_path_allowed] answers false for the existing file
    [/etc/passwd], with an error; [validate_reference] binds that whole pair to
    [is_valid], which is true as any non-empty tuple, and returns no error. *)
Theorem validate_reference_accepts_disallowed_file :
  (is_path_allowed Sample.fs0 "/etc/passwd" (allowed_dirs Sample.db0)).1 =
    (false, Some "Path is not within allowed directories: /etc/passwd") ∧
  (validate_reference Sample.fs0 FILE "/etc/passwd" Sample.db0).1 =
    (PyTuple (false, Some "Path is not within allowed directories: /etc/passwd"), None) ∧
  truthy (validate_reference Sample.fs0 FILE "/etc/passwd" Sample.db0).1.1 = true.
Proof. vm_compute. done. Qed.

(** [FilePathValidator.validate_path] accepts a file below a directory that is
    allowed without its subdirectories. *)
Example validate_path_accepts_nested_file :
  validate_path Sample.fs0 "/app/sub/x.md" [{| path := "/app"; is_recursive := false |}] =
    (true, None, Some "Allowed directory is not recursive") ∧
  allowed_by Sample.fs0 ["app"; "sub"; "x.md"] [{| path := "/app"; is_recursive := false |}]
    = false.
Proof. vm_compute. done. Qed.

End PathsProps.

(** ** Refreshing blocks *)

Module RefreshProps.

Import Paths Refresh.

Section Blocks.

Variable env : Env.

(** *** What a refresh does to the database goes unseen by references *)

Lemma same_view_refl d : same_view (fs env) d d.
Proof. done. Qed.





(** *** A successful refresh has a count that is not negative *)

Lemma refresh_block_ok_nonneg b c w r w' :
  refresh_block env b c w = (Ok r, w') → 0 ≤ token_count r.
Proof.
  unfold refresh_block.
  destruct (reference_content_of env _ _) as [rc d1].
  destruct (count_tokens env _) as [n|]; [|discriminate].
  unfold Counter.update_block.
  destruct (Z.ltb_spec n 0); [discriminate|].
  intros [= <- _]. done.
Qed.

(** *** The text a block is counted on *)


(** *** The gathered results *)

Lemma gather_length blocks cs : ∀ w,
  length (gather env blocks cs w).1 = length blocks.
Proof.
  induction blocks as [|b blocks IH]; intros w; simpl; [done|].
  destruct (refresh_block env b _ w) as [r w1].
  specialize (IH w1). destruct (gather env blocks cs w1) as [rs w2].
  simpl in *. by rewrite IH.
Qed.

Lemma gather_nonneg blocks cs : ∀ w,
  Forall (λ n, 0 ≤ n) (ok_counts (gather env blocks cs w).1).
Proof.
  induction blocks as [|b blocks IH]; intros w; simpl; [constructor|].
  destruct (refresh_block env b _ w) as [r w1] eqn:Hr.
  specialize (IH w1). destruct (gather env blocks cs w1) as [rs w2].
  simpl in *. destruct r as [r|e]; simpl; [|done].
  constructor; [|done]. by eapply refresh_block_ok_nonneg.
Qed.


End Blocks.

(** *** The tally *)

Lemma tally_total items : ∀ acc,
  all_total_tokens (foldl tally acc items) =
    all_total_tokens acc + sum_counts (ok_counts items.*2).
Proof.
  unfold sum_counts.
  induction items as [|[b r] items IH]; intros acc; simpl; [lia|].
  rewrite IH. destruct r as [r|e]; unfold tally; simpl;
    [rewrite <- Z.add_assoc|]; reflexivity.
Qed.


Lemma sum_counts_nonneg l : Forall (λ n, 0 ≤ n) l → 0 ≤ sum_counts l.
Proof. unfold sum_counts. induction 1; simpl; lia. Qed.


(** *** [refresh_all] within the thirty seconds *)

Lemma refresh_all_in_time env blocks cs w :
  let w0 := with_counter (Counter.reset (counter w)).1 w in
  let results := (gather env blocks cs w0).1 in
  let r := foldl tally empty_result (zip blocks results) in
  ∃ w', refresh_all env blocks cs None w = (Ok r, w') ∧
        all_total_tokens r = sum_counts (ok_counts results) ∧
        Counter.total_tokens (counter w') = all_total_tokens r.
Proof.
  cbv zeta. unfold refresh_all.
  set (w0 := with_counter _ w).
  pose proof (gather_length env blocks cs w0) as Hlen.
  pose proof (gather_nonneg env blocks cs w0) as Hnn.
  destruct (gather env blocks cs w0) as [rs w1]. simpl in Hlen, Hnn |- *.
  set (r := foldl tally empty_result (zip blocks rs)).
  assert (Htotal : all_total_tokens r = sum_counts (ok_counts rs)).
  { unfold r. rewrite tally_total. simpl. by rewrite snd_zip by lia. }
  unfold Counter.set_total_tokens.
  destruct (Z.ltb_spec (all_total_tokens r) 0) as [Hneg|_].
  { pose proof (sum_counts_nonneg _ Hnn). lia. }
  eexists. split; [reflexivity|]. split; done.
Qed.




(** *** [refresh_all] beyond the thirty seconds *)

Lemma refresh_all_timeout env blocks cs k w :
  (k < length blocks)%nat →
  (refresh_all env blocks cs (Some k) w).1 = Raise (all_error timeout_error).
Proof.
  intros Hk. unfold refresh_all.
  destruct (Nat.ltb_spec k (length blocks)); [done|lia].
Qed.

(** C5. When the thirty seconds run out, the exception that leaves
    [refresh_all] is a [RefreshError] whose message is "Failed to refresh all
    blocks": the error raised for the timeout, with the advice to refresh the
    blocks one by one, is caught by the enclosing handler and only kept as the
    cause of the one that is raised. *)
Theorem timeout_message_is_replaced :
  ∃ e, (refresh_all Sample.env0 ["b1"; "b2"] (Some Sample.contents0) (Some 1%nat)
          Sample.w0).1 = Raise e ∧
       exn_class e = RefreshError ∧
       exn_str e = "Failed to refresh all blocks" ∧
       exn_cause e = Some (Exn RefreshError
         "Operation timed out. Please try refreshing blocks individually.").
Proof. eexists. split; [vm_compute; reflexivity|]. done. Qed.

End RefreshProps.

(** ** More on the global token counter *)

Module CounterFacts.

Import Counter CounterNotions.

(** X1. A mutating call that raises has changed nothing, and it raises only
    for the reason its exception names: [update_block] and [set_total_tokens]
    raise [InvalidTokenCountError] on a negative number, [remove_block] raises
    [BlockNotFoundError] on an id that is not in the map,
    [update_blocks_batch] raises [ValueError] when one of its entries is not
    a non-negative integer, and [reset] never raises. *)
Theorem failed_call_changes_nothing (k : call) (c c' : GlobalTokenCounter)
  (e : exn) (tr : list event) :
  step k c = (Raise e, c', tr) →
  c' = c ∧
  match k with
  | UpdateBlock _ n => n < 0 ∧ exn_class e = InvalidTokenCountError
  | UpdateBlocksBatch us =>
      (∃ u, u ∈ us ∧ invalid_count u.2 = true) ∧ exn_class e = ValueError
  | RemoveBlock i => _blocks c !! i = None ∧ exn_class e = BlockNotFoundError
  | SetTotalTokens t => t < 0 ∧ exn_class e = InvalidTokenCountError
  | Reset => False
  end.
Proof.
  destruct k as [i n|us|i|t|]; simpl.
  - unfold update_block. destruct (Z.ltb_spec n 0); [|discriminate].
    intros [= <- <- _]. done.
  - unfold update_blocks_batch. destruct us as [|u us]; [discriminate|].
    destruct (existsb _ (u :: us)) eqn:Hex; [|discriminate].
    intros [= <- <- _]. split; [done|]. split; [|done].
    apply existsb_exists in Hex as (x & Hin & Hx).
    exists x. split; [by apply list_elem_of_In|done].
  - unfold remove_block. destruct (_blocks c !! i) eqn:Hi; [discriminate|].
    intros [= <- <- _]. done.
  - unfold set_total_tokens. destruct (Z.ltb_spec t 0); [|discriminate].
    intros [= <- <- _]. done.
  - discriminate.
Qed.

Lemma failed_call_changes_nothing_witness :
  let c := after (UpdateBlock "a" 3) init in
  let e := Exn BlockNotFoundError "Block zz not found" in
  step (RemoveBlock "zz") c = (Raise e, c, [ErrorNotified "BLOCK_NOT_FOUND"]) ∧
  c = c ∧ _blocks c !! "zz" = None ∧ exn_class e = BlockNotFoundError.
Proof.
  intros c e.
  assert (H : step (RemoveBlock "zz") c = (Raise e, c, [ErrorNotified "BLOCK_NOT_FOUND"]))
    by (vm_compute; reflexivity).
  split; [exact H|].
  exact (failed_call_changes_nothing (RemoveBlock "zz") c c e _ H).
Defined.

Lemma get_block_count_lookup i c :
  get_block_count i c =
    (match _blocks c !! i with Some b => token_count b | None => 0 end, []).
Proof.
  unfold get_block_count, dict_getitem.
  destruct (_blocks c !! i) as [b|] eqn:Hi.
  - rewrite bool_decide_eq_true_2; [done|by eexists].
  - rewrite bool_decide_eq_false_2; [done|]. by intros [? ?].
Qed.

(** X2. After [update_block i n] with a count that is not negative,
    [get_block_count i] is [n] (0 included: the block is gone), and the count
    of every other block is what it was. *)
Theorem update_then_read (i : string) (n : Z) (c : GlobalTokenCounter) :
  0 ≤ n →
  get_block_count i (after (UpdateBlock i n) c) = (n, []) ∧
  ∀ j, j ≠ i →
    get_block_count j (after (UpdateBlock i n) c) = get_block_count j c.
Proof.
  intros Hn. unfold after; simpl. unfold update_block.
  destruct (Z.ltb_spec n 0); [lia|]. simpl.
  split.
  - rewrite get_block_count_lookup. simpl.
    destruct (Z.eqb_spec n 0) as [->|Hne].
    + by rewrite lookup_delete_eq.
    + by rewrite lookup_insert_eq.
  - intros j Hj. rewrite !get_block_count_lookup. simpl.
    destruct (n =? 0).
    + by rewrite lookup_delete_ne.
    + by rewrite lookup_insert_ne.
Qed.

Lemma update_then_read_witness :
  let c := after (UpdateBlock "b" 4) init in
  0 ≤ 7 ∧
  get_block_count "a" (after (UpdateBlock "a" 7) c) = (7, []) ∧
  ∀ j, j ≠ "a" →
    get_block_count j (after (UpdateBlock "a" 7) c) = get_block_count j c.
Proof.
  intros c.
  assert (H : 0 ≤ 7) by lia.
  split; [exact H|]. exact (update_then_read "a" 7 c H).
Defined.

(** *** Invariants of the block map *)

Lemma existsb_false_Forall {A} (f : A → bool) (l : list A) :
  existsb f l = false → Forall (λ x, f x = false) l.
Proof.
  induction l as [|x l IH]; simpl; [constructor|].
  intros [? ?]%orb_false_iff. constructor; auto.
Qed.

Lemma valid_count_nonneg a : invalid_count a = false → 0 ≤ count_value a.
Proof. destruct a as [n|]; simpl; [|discriminate]. intros ?%Z.ltb_ge. done. Qed.

Lemma batch_step_lookup (m : gmap string TokenBlock) u j :
  batch_step m u !! j =
    if decide (u.1 = j)
    then Some {| id := match m !! j with Some b => id b | None => j end;
                 token_count := count_value u.2 |}
    else m !! j.
Proof.
  unfold batch_step. destruct (decide (u.1 = j)) as [<-|Hne].
  - rewrite lookup_alter_eq. destruct (m !! u.1) as [b|] eqn:Hm.
    + by rewrite Hm.
    + by rewrite lookup_insert_eq.
  - rewrite lookup_alter_ne by done. destruct (m !! u.1); [done|].
    by rewrite lookup_insert_ne.
Qed.

Lemma batch_steps_well_formed us : ∀ m,
  Forall (λ u, invalid_count u.2 = false) us →
  well_formed_map m → well_formed_map (foldl batch_step m us).
Proof.
  induction us as [|u us IH]; intros m Hus Hm; simpl; [done|].
  inversion Hus as [|? ? Hu Hrest]; subst. apply IH; [done|].
  intros j b. rewrite batch_step_lookup.
  destruct (decide (u.1 = j)) as [<-|Hne]; [|apply Hm].
  intros [= <-]. simpl. split; [|by apply valid_count_nonneg].
  destruct (m !! u.1) as [b|] eqn:Hb; [|done]. by apply Hm in Hb as [? _].
Qed.

Lemma after_well_formed k c : well_formed c → well_formed (after k c).
Proof.
  unfold well_formed. intros Hc.
  destruct k as [i n|us|i|t|]; unfold after; simpl.
  - unfold update_block. destruct (Z.ltb_spec n 0); [done|]. simpl.
    intros j b. destruct (n =? 0).
    + intros [_ ?]%lookup_delete_Some. by apply Hc.
    + intros [[<- <-]|[_ ?]]%lookup_insert_Some; [simpl; split; [done|lia]|by apply Hc].
  - unfold update_blocks_batch. destruct us as [|u us]; [done|].
    destruct (existsb _ (u :: us)) eqn:Hex; simpl; [done|].
    apply (batch_steps_well_formed (u :: us)); [|exact Hc].
    by apply existsb_false_Forall in Hex.
  - unfold remove_block. destruct (_blocks c !! i); [|done]. simpl.
    intros j b [_ ?]%lookup_delete_Some. by apply Hc.
  - unfold set_total_tokens. by destruct (t <? 0).
  - intros j b. by rewrite lookup_empty.
Qed.

(** X3. Whatever calls are issued on a fresh counter, after each of them
    every block of the map is stored under its own id and has a count that is
    not negative. *)
Theorem blocks_stay_well_formed (ks : list call) :
  Forall well_formed (states_after ks init).
Proof.
  assert (H : ∀ c, well_formed c → Forall well_formed (states_after ks c)).
  { induction ks as [|k ks IH]; intros c Hc; simpl; [constructor|].
    constructor; [by apply after_well_formed|]. by apply IH, after_well_formed. }
  apply H. intros i b. simpl. by rewrite lookup_empty.
Qed.

Lemma after_positive k c :
  is_batch k = false → all_positive c → all_positive (after k c).
Proof.
  unfold all_positive. intros Hk Hc.
  destruct k as [i n|us|i|t|]; unfold after; simpl; try discriminate.
  - unfold update_block. destruct (Z.ltb_spec n 0); [done|]. simpl.
    intros j b. destruct (Z.eqb_spec n 0).
    + intros [_ ?]%lookup_delete_Some. by eapply Hc.
    + intros [[<- <-]|[_ ?]]%lookup_insert_Some; [simpl; lia|by eapply Hc].
  - unfold remove_block. destruct (_blocks c !! i); [|done]. simpl.
    intros j b [_ ?]%lookup_delete_Some. by eapply Hc.
  - unfold set_total_tokens. by destruct (t <? 0).
Qed.

(** X4. As long as [update_blocks_batch] is not among the calls issued on a
    fresh counter, every block of the map has a strictly positive count after
    each call: [update_block] never stores a zero. *)
Theorem blocks_positive_without_batch (ks : list call) :
  Forall (λ k, is_batch k = false) ks →
  Forall all_positive (states_after ks init).
Proof.
  assert (H : ∀ c, Forall (λ k, is_batch k = false) ks → all_positive c →
                   Forall all_positive (states_after ks c)).
  { induction ks as [|k ks IH]; intros c Hks Hc; simpl; [constructor|].
    inversion Hks; subst.
    constructor; [by apply after_positive|]. apply IH; [done|]. by apply after_positive. }
  intros Hks. apply H; [done|]. intros i b. simpl. by rewrite lookup_empty.
Qed.

Lemma blocks_positive_without_batch_witness :
  let ks := [UpdateBlock "a" 3; SetTotalTokens 10; UpdateBlock "a" 0;
             UpdateBlock "b" 2; RemoveBlock "a"; Reset] in
  Forall (λ k, is_batch k = false) ks ∧ Forall all_positive (states_after ks init).
Proof.
  intros ks.
  assert (H : Forall (λ k, is_batch k = false) ks) by (repeat constructor).
  split; [exact H | exact (blocks_positive_without_batch ks H)].
Defined.

(** *** A batch and the same updates one by one *)

Lemma batch_steps_insert us : ∀ c,
  well_formed c →
  Forall (λ u, ∃ n, u.2 = IntCount n ∧ 0 < n) us →
  foldl batch_step (_blocks c) us = _blocks (one_by_one us c).
Proof.
  induction us as [|u us IH]; intros c Hc Hus; simpl; [done|].
  inversion Hus as [|? ? (n & Hn & Hpos) Hrest]; subst.
  assert (Hstep : batch_step (_blocks c) u
                  = _blocks (update_block u.1 (count_value u.2) c).1.2).
  { apply map_eq. intros j. rewrite batch_step_lookup.
    unfold update_block. rewrite Hn. simpl.
    destruct (Z.ltb_spec n 0); [lia|]. destruct (Z.eqb_spec n 0); [lia|]. simpl.
    destruct (decide (u.1 = j)) as [<-|Hne].
    - rewrite lookup_insert_eq. f_equal. f_equal.
      destruct (_blocks c !! u.1) as [b|] eqn:Hb; [|done]. by apply Hc in Hb as [? _].
    - by rewrite lookup_insert_ne. }
  rewrite Hstep. apply IH; [|done].
  apply (after_well_formed (UpdateBlock u.1 (count_value u.2)) c Hc).
Qed.

Lemma one_by_one_total us : ∀ c,
  us ≠ [] →
  Forall (λ u, ∃ n, u.2 = IntCount n ∧ 0 < n) us →
  _total_tokens (one_by_one us c) = sum_blocks (_blocks (one_by_one us c)).
Proof.
  induction us as [|u us IH] using rev_ind; intros c Hne Hus; [done|].
  apply Forall_app in Hus as [_ Hu]. inversion Hu as [|? ? (n & Hn & Hpos) _]; subst.
  unfold one_by_one. rewrite foldl_snoc. unfold update_block. rewrite Hn. simpl.
  destruct (Z.ltb_spec n 0); [lia|]. done.
Qed.

(** X5. On a counter whose blocks are stored under their ids, a batch of
    strictly positive integer counts leaves the same map and the same total as
    the same updates issued one by one through [update_block], in the order of
    the batch. *)
Theorem batch_is_one_by_one (us : list (string * count_arg)) (c : GlobalTokenCounter) :
  well_formed c →
  us ≠ [] →
  Forall (λ u, ∃ n, u.2 = IntCount n ∧ 0 < n) us →
  (update_blocks_batch us c).1.1 = Ok tt ∧
  _blocks (update_blocks_batch us c).1.2 = _blocks (one_by_one us c) ∧
  _total_tokens (update_blocks_batch us c).1.2 = _total_tokens (one_by_one us c).
Proof.
  intros Hc Hne Hus.
  assert (Hvalid : existsb (λ u, invalid_count u.2) us = false).
  { clear Hne. induction Hus as [|u us (n & Hn & Hpos) _ IH]; simpl; [done|].
    rewrite IH, Hn. simpl. destruct (Z.ltb_spec n 0); [lia|done]. }
  unfold update_blocks_batch. destruct us as [|u us]; [done|].
  rewrite Hvalid.
  pose proof (batch_steps_insert (u :: us) c Hc Hus) as Hb.
  pose proof (one_by_one_total (u :: us) c Hne Hus) as Ht.
  cbn [fst snd _blocks _total_tokens].
  split; [done|]. split; [exact Hb|]. by rewrite Ht, <- Hb.
Qed.

Lemma batch_is_one_by_one_witness :
  let c := after (UpdateBlock "a" 3) init in
  let us := [("a", IntCount 5); ("b", IntCount 2); ("a", IntCount 9)] in
  well_formed c ∧ us ≠ [] ∧
  Forall (λ u, ∃ n, u.2 = IntCount n ∧ 0 < n) us ∧
  (update_blocks_batch us c).1.1 = Ok tt ∧
  _blocks (update_blocks_batch us c).1.2 = _blocks (one_by_one us c) ∧
  _total_tokens (update_blocks_batch us c).1.2 = _total_tokens (one_by_one us c).
Proof.
  intros c us.
  assert (H1 : well_formed c).
  { apply after_well_formed. intros i b. simpl. by rewrite lookup_empty. }
  assert (H2 : us ≠ []) by discriminate.
  assert (H3 : Forall (λ u, ∃ n, u.2 = IntCount n ∧ 0 < n) us).
  { repeat constructor; eexists; (split; [reflexivity|lia]). }
  repeat (split; [assumption|]).
  exact (batch_is_one_by_one us c H1 H2 H3).
Defined.

(** *** Listeners *)

Lemma after_listeners k c : _listeners (after k c) = _listeners c.
Proof.
  destruct k as [i n|us|i|t|]; unfold after; simpl; [| | | |done].
  - unfold update_block. by destruct (n <? 0).
  - unfold update_blocks_batch. destruct us; [done|]. by destruct (existsb _ _).
  - unfold remove_block. by destruct (_blocks c !! i).
  - unfold set_total_tokens. by destruct (t <? 0).
Qed.

Lemma perform_names_unique acts : ∀ c,
  NoDup (lname <$> _listeners c) →
  NoDup (lname <$> _listeners (perform acts c)).
Proof.
  induction acts as [|a acts IH]; intros c Hc; simpl; [done|].
  apply IH. destruct a as [[l|]|k]; simpl; [| done |by rewrite after_listeners].
  destruct (existsb _ (_listeners c)) eqn:Hex; simpl; [done|].
  rewrite fmap_app. apply NoDup_app. split; [done|]. split; [|apply NoDup_singleton].
  intros x Hx [->|[]%elem_of_nil]%elem_of_cons.
  apply list_elem_of_fmap in Hx as (l' & Hl' & Hin).
  apply existsb_false_Forall in Hex.
  rewrite Forall_forall in Hex. apply Hex in Hin.
  apply Nat.eqb_neq in Hin. congruence.
Qed.

Lemma named_absent name ls : name ∉ lname <$> ls → named name ls = 0%nat.
Proof.
  unfold named. induction ls as [|l ls IH]; simpl; [done|].
  intros Hn. apply not_elem_of_cons in Hn as [Hne Hn].
  destruct (Nat.eqb_spec (lname l) name); [congruence|]. by apply IH.
Qed.

Lemma named_once l ls : NoDup (lname <$> ls) → l ∈ ls → named (lname l) ls = 1%nat.
Proof.
  induction ls as [|l0 ls IH]; simpl; [by intros _ ?%elem_of_nil|].
  intros [Hnot Hnd]%NoDup_cons Hin. unfold named in *. simpl.
  apply elem_of_cons in Hin as [->|Hin].
  - rewrite Nat.eqb_refl. simpl. f_equal. by apply named_absent.
  - destruct (Nat.eqb_spec (lname l0) (lname l)) as [Heq|_]; [|by apply IH].
    destruct Hnot. rewrite Heq. by apply list_elem_of_fmap_2.
Qed.

(** In a trace built listener by listener, with one call each and nothing
    else that is a call, a name is called as often as it is registered. *)
Lemma times_called_flat_map name total (rest : Listener → list event) ls :
  (∀ l, times_called name total (rest l) = 0%nat) →
  times_called name total
    (flat_map (λ l, ListenerCalled (lname l) total :: rest l) ls) = named name ls.
Proof.
  intros Hrest. unfold times_called, named in *.
  induction ls as [|l ls IH]; simpl; [done|].
  rewrite Z.eqb_refl, andb_true_r, List.filter_app.
  destruct (lname l =? name)%nat; simpl; rewrite length_app, Hrest, IH; done.
Qed.

(** X6. With callbacks registered and calls issued in any order on a fresh
    counter, a successful [update_block], [remove_block], [set_total_tokens] or
    [reset] calls every registered listener exactly once with the new total,
    also when listeners raise. *)
Theorem each_listener_called_once (acts : list action) (k : call)
  (c' : GlobalTokenCounter) (tr : list event) (l : Listener) :
  is_batch k = false →
  step k (perform acts init) = (Ok tt, c', tr) →
  l ∈ _listeners (perform acts init) →
  times_called (lname l) (_total_tokens c') tr = 1%nat.
Proof.
  intros Hk Hstep Hl.
  pose proof (perform_names_unique acts init (NoDup_nil_2)) as Hnd.
  set (c := perform acts init) in *.
  rewrite <- (named_once l (_listeners c) Hnd Hl).
  destruct k as [i n|us|i|t|]; simpl in Hstep; try discriminate.
  - unfold update_block in Hstep. destruct (n <? 0); [discriminate|].
    injection Hstep as <- <-. unfold _notify_listeners; simpl.
    apply times_called_flat_map. intros l0. by destruct (lraises l0 _).
  - unfold remove_block in Hstep. destruct (_blocks c !! i); [|discriminate].
    injection Hstep as <- <-. unfold _notify_listeners; simpl.
    apply times_called_flat_map. intros l0. by destruct (lraises l0 _).
  - unfold set_total_tokens in Hstep. destruct (t <? 0); [discriminate|].
    injection Hstep as <- <-. simpl.
    apply times_called_flat_map. intros l0. by destruct (lraises l0 _).
  - injection Hstep as <- <-. simpl.
    apply times_called_flat_map. intros l0. by destruct (lraises l0 _).
Qed.

Lemma each_listener_called_once_witness :
  let loud := {| lname := 1; lraises := λ _, true |} in
  let acts := [Register (Callable Sample.quiet); Do (UpdateBlock "a" 3);
               Register (Callable loud); Register (Callable Sample.quiet);
               Register NotCallable] in
  let c' := after (UpdateBlock "b" 4) (perform acts init) in
  let tr := [ListenerCalled 0 7; ListenerCalled 1 7;
             ErrorNotified "LISTENER_CALLBACK_ERROR"] in
  is_batch (UpdateBlock "b" 4) = false ∧
  step (UpdateBlock "b" 4) (perform acts init) = (Ok tt, c', tr) ∧
  loud ∈ _listeners (perform acts init) ∧
  times_called (lname loud) (_total_tokens c') tr = 1%nat.
Proof.
  intros loud acts c' tr.
  assert (H1 : is_batch (UpdateBlock "b" 4) = false) by reflexivity.
  assert (H2 : step (UpdateBlock "b" 4) (perform acts init) = (Ok tt, c', tr))
    by (vm_compute; reflexivity).
  assert (H3 : loud ∈ _listeners (perform acts init)).
  { change (_listeners (perform acts init)) with [Sample.quiet; loud].
    apply elem_of_cons. right. apply elem_of_cons. by left. }
  repeat (split; [assumption|]).
  exact (each_listener_called_once acts (UpdateBlock "b" 4) c' tr loud H1 H2 H3).
Defined.

End CounterFacts.

(** ** More on the background processor *)

Module SchedulerFacts.

Import Scheduler SchedulerNotions.

(** *** Transient failures *)

Lemma attempts_then_success (v : string) : ∀ k (e : nat → exn) fuel calls t,
  (∀ j, (j < k)%nat → func t (calls + j)%nat = Raise (e j)) →
  func t (calls + k)%nat = Ok v →
  (retries t + k < max_retries t)%nat →
  (max_retries t - retries t ≤ fuel)%nat →
  ∃ t' tr, attempts fuel calls t = Some (t', tr) ∧
    status t' = COMPLETED ∧ result t' = Some v ∧
    retries t' = (retries t + k)%nat ∧ error t' = error t ∧
    invocations tr = seq calls (S k) ∧
    sleeps tr = backoff (S (retries t)) k ∧
    moves tr = schedule calls (S (retries t)) k ++ [Call (calls + k)%nat].
Proof.
  induction k as [|k IH]; intros e fuel calls t Hfail Hok Hlt Hfuel;
    rewrite SchedulerProps.attempts_eq;
    (destruct (Nat.ltb_spec (retries t) (max_retries t)); [|lia]);
    (destruct fuel as [|fuel]; [lia|]).
  - rewrite Nat.add_0_r in Hok. rewrite Hok.
    eexists _, _. split; [reflexivity|]. simpl.
    rewrite !Nat.add_0_r. repeat split; done.
  - pose proof (Hfail 0%nat ltac:(lia)) as H0. rewrite Nat.add_0_r in H0.
    rewrite H0. cbv zeta.
    destruct (Nat.leb_spec (max_retries (incr_retries t)) (retries (incr_retries t)))
      as [Hle|_]; [simpl in Hle; lia|].
    destruct (IH (λ j, e (S j)) fuel (S calls) (incr_retries t))
      as (t' & tr & Hrun & Hst & Hres & Hre & Her & Hin & Hsl & Hmv); simpl.
    { intros j Hj. replace (S (calls + j)) with (calls + S j)%nat by lia.
      apply Hfail. lia. }
    { by replace (S (calls + k)) with (calls + S k)%nat by lia. }
    { lia. }
    { lia. }
    rewrite Hrun. eexists _, _. split; [reflexivity|]. simpl in *.
    split; [done|]. split; [done|]. split; [lia|]. split; [done|].
    split; [by rewrite Hin|].
    split; [rewrite Hsl; unfold backoff; simpl; f_equal; lia|].
    rewrite Hmv. do 2 f_equal; [f_equal; lia|]. do 3 f_equal. lia.
Qed.

(** X7. When a worker takes off the queue a task as [submit] made it whose
    function raises at its first [k] invocations, [k] below [max_retries], and
    returns [v] at the next, the task ends COMPLETED with result [v]; [retries]
    counts the [k] failures and the error field is untouched. The function was
    invoked [k+1] times, and between the failure number [j] and the next
    invocation the worker slept [1 * 2^(j-1)] seconds: invocations and sleeps
    alternate, the successful invocation closing the run. The task is not put
    back on the queue. *)
Theorem transient_failures_are_retried (p : BackgroundProcessor) (u : UUID) (t : Task)
  (e : nat → exn) (v : string) (k : nat) (prio : Z) (q' : list entry) :
  (0 < workers p)%nat →
  heappop (queue p) = (Ok (prio, u), q') →
  tasks p !! u = Some t →
  retries t = 0%nat →
  (k < max_retries t)%nat →
  (∀ j, (j < k)%nat → func t j = Raise (e j)) →
  func t k = Ok v →
  ∃ p' tr t',
    _worker p = Some (p', tr) ∧
    get_task u p' = Some t' ∧
    status t' = COMPLETED ∧
    result t' = Some v ∧
    retries t' = k ∧
    error t' = error t ∧
    moves tr = schedule 0 1 k ++ [Call k] ∧
    invocations tr = seq 0 (S k) ∧
    sleeps tr = backoff 1 k ∧
    queue p' = q'.
Proof.
  intros Hw Hpop Hu Hr Hk Hfail Hok. unfold _worker.
  destruct (workers p) as [|w]; [lia|].
  destruct (queue p) as [|x q] eqn:Hq; [discriminate|].
  rewrite Hpop. cbn [snd]. unfold process_task. cbn [tasks with_queue].
  rewrite Hu.
  destruct (attempts_then_success v k e (max_retries t) 0 (set_running (clock p) t))
    as (t' & tr & Hrun & Hst & Hres & Hre & Her & Hin & Hsl & Hmv);
    simpl; try done; try lia.
  simpl in *. rewrite Hr in *.
  unfold run_task. simpl. rewrite Hr, Nat.sub_0_r, Hrun.
  assert (Hinv : ∀ tr', invocations (tr ++ tr') = invocations tr ++ invocations tr').
  { intros tr'. unfold invocations. by rewrite omap_app. }
  assert (Hslp : ∀ tr', sleeps (tr ++ tr') = sleeps tr ++ sleeps tr').
  { intros tr'. unfold sleeps. by rewrite omap_app. }
  assert (Hmvs : ∀ tr', moves (tr ++ tr') = moves tr ++ moves tr').
  { intros tr'. unfold moves. by rewrite omap_app. }
  unfold task_done; simpl.
  destruct (unfinished_tasks p); simpl;
    eexists _, _, _; (split; [reflexivity|]); unfold get_task; simpl;
    rewrite lookup_insert_eq; (split; [reflexivity|]); simpl;
    rewrite ?Hinv, ?Hslp, ?Hmvs; simpl; rewrite ?app_nil_r; done.
Qed.

Lemma transient_failures_are_retried_witness :
  let p := start (submit Sample.uuid_seq flaky HIGH (new 5)).2 in
  let t := new_Task 0%N flaky HIGH in
  (0 < workers p)%nat ∧
  heappop (queue p) = (Ok (0, 0%N), []) ∧
  tasks p !! 0%N = Some t ∧ retries t = 0%nat ∧ (2 < max_retries t)%nat ∧
  (∀ j, (j < 2)%nat → func t j = Raise (Sample.boom j)) ∧
  func t 2%nat = Ok "done" ∧
  ∃ p' tr t',
    _worker p = Some (p', tr) ∧
    get_task 0%N p' = Some t' ∧
    status t' = COMPLETED ∧
    result t' = Some "done" ∧
    retries t' = 2%nat ∧
    error t' = error t ∧
    moves tr = schedule 0 1 2 ++ [Call 2] ∧
    invocations tr = seq 0 3 ∧
    sleeps tr = backoff 1 2 ∧
    queue p' = [].
Proof.
  intros p t.
  assert (H0 : (0 < workers p)%nat) by (simpl; lia).
  assert (Hp : heappop (queue p) = (Ok (0, 0%N), [])) by reflexivity.
  assert (H1 : tasks p !! 0%N = Some t) by reflexivity.
  assert (H2 : retries t = 0%nat) by reflexivity.
  assert (H3 : (2 < max_retries t)%nat) by (simpl; lia).
  assert (H4 : ∀ j, (j < 2)%nat → func t j = Raise (Sample.boom j)).
  { intros j Hj. simpl. unfold flaky.
    destruct (Nat.ltb_spec j 2); [reflexivity|lia]. }
  assert (H5 : func t 2%nat = Ok "done") by reflexivity.
  repeat (split; [assumption|]).
  exact (transient_failures_are_retried p 0%N t Sample.boom "done" 2 0 []
           H0 Hp H1 H2 H3 H4 H5).
Defined.

(** *** Priorities that all differ *)

(** X8. Three tasks submitted to a new processor with three different
    priorities, in any order, are all accepted, and the queue then gives them
    back by ascending priority value: HIGH, MEDIUM, LOW. *)
Theorem distinct_priorities_dequeue_in_order (uuid4 : nat → UUID)
  (f1 f2 f3 : nat → Py.result string) (p1 p2 p3 : TaskPriority) (n : nat) :
  p1 ≠ p2 → p1 ≠ p3 → p2 ≠ p3 →
  let s1 := submit uuid4 f1 p1 (new n) in
  let s2 := submit uuid4 f2 p2 s1.2 in
  let s3 := submit uuid4 f3 p3 s2.2 in
  s1.1 = Ok (uuid4 0%nat) ∧ s2.1 = Ok (uuid4 1%nat) ∧ s3.1 = Ok (uuid4 2%nat) ∧
  ∃ e1 e2 e3 q1 q2,
    heappop (queue s3.2) = (Ok e1, q1) ∧
    heappop q1 = (Ok e2, q2) ∧
    heappop q2 = (Ok e3, []) ∧
    [e1.1; e2.1; e3.1] = [0; 1; 2] ∧
    ∀ e, e ∈ [e1; e2; e3] ↔
         e ∈ [(priority_value p1, uuid4 0%nat); (priority_value p2, uuid4 1%nat);
              (priority_value p3, uuid4 2%nat)].
Proof.
  intros H12 H13 H23.
  destruct p1, p2, p3; try done; cbv zeta;
    (split; [reflexivity|]); (split; [reflexivity|]); (split; [reflexivity|]);
    eexists _, _, _, _, _;
    (split; [reflexivity|]); (split; [reflexivity|]); (split; [reflexivity|]);
    (split; [reflexivity|]); intros e; simpl;
    rewrite !elem_of_cons, !elem_of_nil; tauto.
Qed.

Lemma distinct_priorities_dequeue_in_order_witness :
  let s1 := submit Sample.uuid_seq Sample.succeeds LOW (new 5) in
  let s2 := submit Sample.uuid_seq Sample.fails HIGH s1.2 in
  let s3 := submit Sample.uuid_seq flaky MEDIUM s2.2 in
  LOW ≠ HIGH ∧ LOW ≠ MEDIUM ∧ HIGH ≠ MEDIUM ∧
  s1.1 = Ok 0%N ∧ s2.1 = Ok 1%N ∧ s3.1 = Ok 2%N ∧
  ∃ e1 e2 e3 q1 q2,
    heappop (queue s3.2) = (Ok e1, q1) ∧
    heappop q1 = (Ok e2, q2) ∧
    heappop q2 = (Ok e3, []) ∧
    [e1.1; e2.1; e3.1] = [0; 1; 2] ∧
    ∀ e, e ∈ [e1; e2; e3] ↔ e ∈ [(2, 0%N); (0, 1%N); (1, 2%N)].
Proof.
  intros s1 s2 s3.
  assert (H1 : LOW ≠ HIGH) by discriminate.
  assert (H2 : LOW ≠ MEDIUM) by discriminate.
  assert (H3 : HIGH ≠ MEDIUM) by discriminate.
  repeat (split; [assumption|]).
  exact (distinct_priorities_dequeue_in_order Sample.uuid_seq Sample.succeeds
           Sample.fails flaky LOW HIGH MEDIUM 5 H1 H2 H3).
Defined.

(** *** The heap keeps its items *)

Lemma siftdown_perm : ∀ fuel heap startpos pos,
  (siftdown fuel heap startpos pos).2 ≡ₚ heap.
Proof.
  induction fuel as [|fuel IH]; intros heap startpos pos; [done|].
  rewrite SchedulerProps.siftdown_S.
  destruct (startpos <? pos)%nat; [|done].
  destruct (heap !! pos) as [newitem|] eqn:Hn; [|done].
  destruct (heap !! ((pos - 1) / 2)%nat) as [parent|] eqn:Hp; [|done].
  destruct (entry_lt newitem parent) as [[|]|]; [|done|done].
  rewrite IH. by apply Permutation_insert_swap.
Qed.

Lemma siftup_loop_perm : ∀ fuel heap pos,
  (siftup_loop fuel heap pos).2 ≡ₚ heap.
Proof.
  induction fuel as [|fuel IH]; intros heap pos; [done|].
  cbn [siftup_loop]. cbv zeta.
  destruct (pos <? length heap / 2)%nat; [|done].
  match goal with
  | |- context [match ?pick with Ok _ => _ | Raise _ => _ end] =>
      destruct pick as [childpos|]; [|done]
  end.
  destruct (heap !! childpos) as [c|] eqn:Hc; [|done].
  destruct (heap !! pos) as [x|] eqn:Hx; [|done].
  rewrite IH. by apply Permutation_insert_swap.
Qed.

Lemma siftup_perm heap pos : (siftup heap pos).2 ≡ₚ heap.
Proof.
  unfold siftup.
  pose proof (siftup_loop_perm (length heap) heap pos) as H.
  destruct (siftup_loop (length heap) heap pos) as [[leaf|e] heap']; simpl in *; [|done].
  by rewrite siftdown_perm.
Qed.

Lemma heappush_perm heap item : (heappush heap item).2 ≡ₚ item :: heap.
Proof.
  unfold heappush. rewrite siftdown_perm. by rewrite Permutation_app_comm.
Qed.

(** Whether [heappop] returns or raises, what it leaves is the heap less one
    item, and the item it returns is that one. *)
Lemma heappop_perm heap r q' :
  heap ≠ [] → heappop heap = (r, q') →
  ∃ x, heap ≡ₚ x :: q' ∧ ∀ y, r = Ok y → y = x.
Proof.
  intros Hne. unfold heappop.
  destruct (last heap) as [lastelt|] eqn:Hlast; [|by apply last_None in Hlast].
  apply last_Some in Hlast as [h' ->]. rewrite removelast_last.
  destruct h' as [|returnitem rest].
  - intros [= <- <-]. exists lastelt. split; [done|]. by intros y [= <-].
  - pose proof (siftup_perm (lastelt :: rest) 0) as Hperm.
    destruct (siftup (lastelt :: rest) 0) as [[?|e] heap2]; simpl in Hperm;
      intros [= <- <-]; exists returnitem;
      (split; [|try (by intros y [= <-]); by intros y [=]]);
      simpl; rewrite Hperm, <- Permutation_cons_append; done.
Qed.

(** *** Finished tasks *)

Lemma attempts_finished : ∀ fuel calls t t' tr,
  attempts fuel calls t = Some (t', tr) → finished t'.
Proof.
  induction fuel as [|fuel IH]; intros calls t t' tr;
    rewrite SchedulerProps.attempts_eq;
    destruct (retries t <? max_retries t)%nat;
    try discriminate; try (intros [= <- _]; by right).
  destruct (func t calls); [intros [= <- _]; by left|]. cbv zeta.
  destruct (_ <=? _)%nat; [intros [= <- _]; by right|].
  destruct (attempts fuel (S calls) (incr_retries t)) as [[t'' tr'']|] eqn:Hrec;
    [|discriminate].
  intros [= <- _]. by eapply IH.
Qed.

Section Frozen.

Variable uuid4 : nat → UUID.
Hypothesis uuid4_inj : ∀ i j, uuid4 i = uuid4 j → i = j.

Local Abbreviation sound := (SchedulerNotions.sound uuid4).

Lemma new_sound n : sound (new n).
Proof.
  split; [|split].
  - intros u [t Ht]. simpl in Ht. by rewrite lookup_empty in Ht.
  - simpl. constructor.
  - intros e He. simpl in He. by apply elem_of_nil in He.
Qed.

Lemma queue_ids_in_table p e :
  queue_sound p → e ∈ queue p → is_Some (tasks p !! e.2).
Proof. intros [_ H] He. destruct (H e He) as (t & Ht & _). by eexists. Qed.

Lemma submit_queue f prio p :
  queue (submit uuid4 f prio p).2 ≡ₚ
    (priority_value prio, uuid4 (uuid_calls p)) :: queue p.
Proof.
  unfold submit. cbn [queue with_tasks drew_uuid].
  pose proof (heappush_perm (queue p) (priority_value prio, uuid4 (uuid_calls p)))
    as Hperm.
  by destruct (heappush (queue p) _) as [[?|?] q'].
Qed.

Lemma submit_sound f prio p : sound p → sound (submit uuid4 f prio p).2.
Proof.
  intros [Hk [Hnd Hq]].
  destruct (SchedulerProps.submit_table uuid4 f prio p) as [Hc Ht].
  pose proof (submit_queue f prio p) as Hperm.
  set (u := uuid4 (uuid_calls p)) in *.
  set (p' := (submit uuid4 f prio p).2) in *.
  assert (Hfresh : tasks p !! u = None).
  { destruct (tasks p !! u) as [t|] eqn:Hl; [|done].
    destruct (Hk u) as (k & Hlt & Heq); [by eexists|].
    apply uuid4_inj in Heq. lia. }
  assert (Hnotq : u ∉ (queue p).*2).
  { intros (e & -> & He)%list_elem_of_fmap.
    destruct (Hq e He) as (t & Ht' & _). congruence. }
  split; [|split].
  - intros v Hv. rewrite Hc. rewrite Ht in Hv.
    destruct (decide (u = v)) as [<-|Hne].
    + exists (uuid_calls p). split; [lia|done].
    + rewrite lookup_insert_ne in Hv by done.
      destruct (Hk v Hv) as (k & ? & ?). exists k. split; [lia|done].
  - rewrite Hperm. simpl. by apply NoDup_cons.
  - intros e He. rewrite Hperm in He. rewrite Ht.
    apply elem_of_cons in He as [->|He]; simpl.
    + rewrite lookup_insert_eq. by eexists.
    + destruct (Hq e He) as (t & Ht' & Hs). exists t. split; [|done].
      rewrite lookup_insert_ne; [done|]. intros Heq. apply Hnotq.
      rewrite Heq. by apply list_elem_of_fmap_2.
Qed.

Lemma process_task_other u p p' tr v :
  process_task u p = Some (p', tr) → v ≠ u →
  tasks p' !! v = tasks p !! v.
Proof.
  unfold process_task. destruct (tasks p !! u) as [t|]; [|by intros [= <- _]].
  destruct (run_task _) as [[t2 tr2]|]; [|discriminate].
  unfold task_done; simpl.
  destruct (unfinished_tasks p); simpl; intros [= <- _] Hne; simpl;
    by rewrite lookup_insert_ne.
Qed.

Lemma process_task_shape u p p' tr :
  process_task u p = Some (p', tr) →
  queue p' = queue p ∧ uuid_calls p' = uuid_calls p ∧
  (∀ t, tasks p !! u = Some t → ∃ t', tasks p' !! u = Some t' ∧ finished t').
Proof.
  unfold process_task. destruct (tasks p !! u) as [t|] eqn:Hu.
  - destruct (run_task _) as [[t2 tr2]|] eqn:Hrun; [|discriminate].
    apply attempts_finished in Hrun.
    unfold task_done; simpl.
    destruct (unfinished_tasks p); simpl; intros [= <- _]; simpl;
      (split; [done|]); (split; [done|]); intros t0 _;
      rewrite lookup_insert_eq; eexists; (split; [done|]);
      (destruct Hrun as [H|H]; [left|right]; exact H).
  - intros [= <- _]. repeat split; done.
Qed.

Lemma worker_turn p :
  (0 < workers p)%nat → queue p ≠ [] →
  _worker p =
    match heappop (queue p) with
    | (Raise e, q') => Some (with_queue q' (unfinished_tasks p) p, [WorkerError e])
    | (Ok item, q') => process_task item.2 (with_queue q' (unfinished_tasks p) p)
    end.
Proof.
  intros Hw Hq. unfold _worker.
  destruct (workers p); [lia|]. by destruct (queue p).
Qed.

Lemma worker_sound p p' tr : sound p → _worker p = Some (p', tr) → sound p'.
Proof.
  intros Hs. unfold _worker.
  destruct (workers p); [by intros [= <- _]|].
  destruct (queue p) as [|x q] eqn:Hqueue; [by intros [= <- _]|].
  rewrite <- Hqueue.
  assert (Hne : queue p ≠ []) by (rewrite Hqueue; discriminate).
  clear Hqueue. destruct Hs as [Hk [Hnd Hq]].
  destruct (heappop (queue p)) as [[item|e] q'] eqn:Hpop;
    destruct (heappop_perm _ _ _ Hne Hpop) as (x0 & Hperm & Hret).
  - rewrite (Hret item eq_refl) in *. clear Hret. intros Hproc.
    assert (Hnd' : NoDup (x0 :: q').*2) by (by rewrite <- Hperm).
    simpl in Hnd'. apply NoDup_cons in Hnd' as [Hx0 Hnd'].
    destruct (process_task_shape _ _ _ _ Hproc) as (Hqeq & Hceq & _).
    split; [|split].
    + intros v Hv. rewrite Hceq. apply Hk.
      destruct (decide (v = x0.2)) as [->|Hv'].
      * apply (queue_ids_in_table p x0); [done|]. rewrite Hperm. by left.
      * by rewrite (process_task_other _ _ _ _ v Hproc Hv') in Hv.
    + by rewrite Hqeq.
    + intros e He. rewrite Hqeq in He. simpl in He.
      assert (e.2 ≠ x0.2).
      { intros Heq. apply Hx0. rewrite <- Heq. by apply list_elem_of_fmap_2. }
      rewrite (process_task_other _ _ _ _ _ Hproc) by done. simpl.
      apply Hq. rewrite Hperm. by right.
  - intros [= <- _].
    assert (Hnd' : NoDup (x0 :: q').*2) by (by rewrite <- Hperm).
    simpl in Hnd'. apply NoDup_cons in Hnd' as [_ Hnd'].
    split; [done|]. split; [done|].
    intros e0 He. simpl in *. apply Hq. rewrite Hperm. by right.
Qed.

Lemma exec1_sound o p : sound p → sound (exec1 uuid4 o p).
Proof.
  intros Hp. destruct o as [f prio| | |]; simpl.
  - by apply submit_sound.
  - destruct (_worker p) as [[p' tr]|] eqn:Hw; [|done]. by eapply worker_sound.
  - unfold start. by destruct (_running p).
  - done.
Qed.

Lemma exec_sound os : ∀ p, sound p → sound (exec uuid4 os p).
Proof.
  induction os as [|o os IH]; intros p Hp; simpl; [done|].
  by apply IH, exec1_sound.
Qed.

Lemma exec1_frozen o p u t :
  sound p → tasks p !! u = Some t → finished t →
  tasks (exec1 uuid4 o p) !! u = Some t.
Proof.
  intros [Hk [Hnd Hq]] Hu Hfin.
  assert (Hnotq : ∀ e, e ∈ queue p → e.2 ≠ u).
  { intros e He Heq. destruct (Hq e He) as (t0 & Ht0 & Hs).
    rewrite Heq, Hu in Ht0. injection Ht0 as <-. destruct Hfin; congruence. }
  clear Hnd Hq.
  destruct o as [f prio| | |]; simpl; [| |by unfold start; destruct (_running p)|done].
  - destruct (SchedulerProps.submit_table uuid4 f prio p) as [_ ->].
    rewrite lookup_insert_ne; [done|]. intros Heq.
    destruct (Hk u) as (k & Hlt & Hk'); [by eexists|].
    rewrite Hk' in Heq. apply uuid4_inj in Heq. lia.
  - destruct (_worker p) as [[p' tr]|] eqn:Hw; [|done]. simpl.
    destruct (workers p) as [|w] eqn:Hwk.
    { unfold _worker in Hw. rewrite Hwk in Hw. by injection Hw as <-. }
    destruct (decide (queue p = [])) as [Hempty|Hne].
    { unfold _worker in Hw. rewrite Hwk, Hempty in Hw. by injection Hw as <-. }
    rewrite worker_turn in Hw by (done || lia).
    destruct (heappop (queue p)) as [[item|e] q'] eqn:Hpop;
      destruct (heappop_perm _ _ _ Hne Hpop) as (x0 & Hperm & Hret).
    + rewrite (process_task_other _ _ _ _ u Hw); [done|].
      rewrite (Hret item eq_refl). intros ->.
      apply (Hnotq x0); [|done]. rewrite Hperm. by left.
    + by injection Hw as <-.
Qed.

(** X9. Once a task is COMPLETED or FAILED its record never changes again:
    whatever submissions, worker turns, starts and stops follow, [get_task]
    returns the same record. (The draws of [uuid4] are taken not to
    repeat.) *)
Theorem finished_task_is_frozen (n : nat) (os os' : list op) (u : UUID) (t : Task) :
  get_task u (exec uuid4 os (new n)) = Some t →
  finished t →
  get_task u (exec uuid4 os' (exec uuid4 os (new n))) = Some t.
Proof.
  unfold get_task. intros Hu Hfin.
  assert (Hs : sound (exec uuid4 os (new n))) by apply exec_sound, new_sound.
  generalize dependent (exec uuid4 os (new n)). clear os.
  induction os' as [|o os' IH]; intros p Hu Hs; simpl; [done|].
  apply IH; [by apply exec1_frozen|by apply exec1_sound].
Qed.

End Frozen.

Lemma finished_task_is_frozen_witness :
  let os := [Submit Sample.fails HIGH; Start; Worker] in
  let os' := [Submit flaky LOW; Worker; Submit Sample.succeeds LOW; Worker; Stop] in
  let p := exec Sample.uuid_seq os (new 5) in
  (∀ i j, Sample.uuid_seq i = Sample.uuid_seq j → i = j) ∧
  (∃ t, get_task 0%N p = Some t ∧ finished t ∧
        get_task 0%N (exec Sample.uuid_seq os' p) = Some t).
Proof.
  intros os os' p.
  assert (Hinj : ∀ i j, Sample.uuid_seq i = Sample.uuid_seq j → i = j).
  { unfold Sample.uuid_seq. intros i j H. lia. }
  split; [exact Hinj|].
  destruct (get_task 0%N p) as [t|] eqn:Ht; [|vm_compute in Ht; discriminate].
  assert (Hfin : finished t).
  { right. vm_compute in Ht. by injection Ht as <-. }
  exists t. split; [reflexivity|]. split; [exact Hfin|].
  exact (finished_task_is_frozen Sample.uuid_seq Hinj 5 os os' 0%N t Ht Hfin).
Defined.

End SchedulerFacts.

(** ** More on allowed directories and file validation *)

Module PathsFacts.

Import Paths.

Section AllowList.

Variable fs : FileSystem.

(** X10. [is_path_allowed] always leaves a row for the working directory in
    the table, keeps the rows that were there, and so never answers "No
    allowed directories configured"; asked again on the table it left, it
    gives the same answer and leaves the table as it is. *)
Theorem default_directory_is_kept (target_path : string) (dirs : list AllowedDirectory) :
  let answer := is_path_allowed fs target_path dirs in
  (∃ d, d ∈ answer.2 ∧ path d = cwd fs) ∧
  (∃ added, answer.2 = dirs ++ added) ∧
  answer.1.2 ≠ Some "No allowed directories configured" ∧
  is_path_allowed fs target_path answer.2 = answer.
Proof.
  assert (Hhas : ∃ d, d ∈ ensure_default_directory fs dirs ∧ path d = cwd fs).
  { pose proof (PathsProps.ensure_default_has_cwd fs dirs) as H.
    apply existsb_exists in H as (d & Hin & Heq).
    exists d. split; [by apply list_elem_of_In|by apply String.eqb_eq]. }
  assert (Hpre : ∃ added, ensure_default_directory fs dirs = dirs ++ added).
  { unfold ensure_default_directory. destruct (existsb _ dirs).
    - exists []. by rewrite app_nil_r.
    - by eexists. }
  assert (Hdirs : (is_path_allowed fs target_path dirs).2
                  = ensure_default_directory fs dirs).
  { unfold is_path_allowed. destruct (negb _); [done|].
    destruct (ensure_default_directory fs dirs); [done|]. by destruct (allowed_by _ _ _). }
  assert (Hagain : is_path_allowed fs target_path (ensure_default_directory fs dirs)
                   = is_path_allowed fs target_path dirs).
  { unfold is_path_allowed. by rewrite PathsProps.ensure_default_idempotent. }
  cbv zeta. rewrite Hdirs, Hagain.
  split; [done|]. split; [done|]. split; [|done].
  unfold is_path_allowed. destruct (negb _); [done|].
  destruct (ensure_default_directory fs dirs) as [|d0 ds] eqn:Hd.
  { destruct Hhas as (d & Hin & _). by apply elem_of_nil in Hin. }
  by destruct (allowed_by fs (resolve fs target_path) (d0 :: ds)).
Qed.

(** *** [FilePathValidator.validate_path] *)

Lemma check_dirs_accepts p dirs :
  (check_dirs fs p dirs).1.1 = true ↔
  ∃ d, d ∈ dirs ∧ is_subpath p (resolve fs (path d)) = true.
Proof.
  induction dirs as [|d dirs IH]; simpl.
  - split; [done|]. intros (d & Hd & _). by apply elem_of_nil in Hd.
  - destruct (is_subpath p (resolve fs (path d))) eqn:Hsub.
    + split.
      * intros _. exists d. split; [by left|done].
      * intros _. by destruct (negb (is_recursive d) && _).
    + rewrite IH. split.
      * intros (d' & Hd' & Hs). exists d'. split; [by right|done].
      * intros (d' & Hd' & Hs). apply elem_of_cons in Hd' as [->|Hd'];
          [congruence|by exists d'].
Qed.

Lemma check_dirs_error p dirs :
  (check_dirs fs p dirs).1.1 = true ↔ (check_dirs fs p dirs).1.2 = None.
Proof.
  induction dirs as [|d dirs IH]; simpl; [done|].
  destruct (is_subpath p (resolve fs (path d))); [|done].
  by destruct (negb (is_recursive d) && _).
Qed.

(** X11. [validate_path] declares a path valid exactly when it resolves to
    an existing regular file of an allowed type, with no excluded directory
    among its components, in a directory of at most 1000 entries, below some
    allowed directory; whether that directory is recursive plays no part. It
    returns an error message exactly when the path is not valid. *)
Theorem validate_path_accepts_iff (file_path : string) (dirs : list AllowedDirectory) :
  let p := resolve fs file_path in
  ((validate_path fs file_path dirs).1.1 = true ↔
     exists_ fs p = true ∧ is_file fs p = true ∧
     is_allowed_file_type p = true ∧ is_excluded_dir p = false ∧
     (entries fs (parent p) ≤ MAX_SUBDIR_FILES)%nat ∧
     ∃ d, d ∈ dirs ∧ is_subpath p (resolve fs (path d)) = true) ∧
  ((validate_path fs file_path dirs).1.1 = true ↔
     (validate_path fs file_path dirs).1.2 = None).
Proof.
  intros p. unfold validate_path. fold p. unfold has_too_many_files.
  destruct (exists_ fs p); simpl; [|split; split; [done|by intros [? _]|done|done]].
  destruct (is_file fs p); simpl;
    [|split; split; [done|by intros (_ & ? & _)|done|done]].
  destruct (is_allowed_file_type p); simpl;
    [|split; split; [done|by intros (_ & _ & ? & _)|done|done]].
  destruct (is_excluded_dir p); simpl;
    [split; split; [done|by intros (_ & _ & _ & ? & _)|done|done]|].
  destruct (Nat.ltb_spec MAX_SUBDIR_FILES (entries fs (parent p))).
  { split; split; [done| |done|done]. intros (_ & _ & _ & _ & ? & _). lia. }
  destruct dirs as [|d dirs].
  { split; split; [done| |done|done].
    intros (_ & _ & _ & _ & _ & d & Hd & _). by apply elem_of_nil in Hd. }
  split; [rewrite check_dirs_accepts|apply check_dirs_error].
  split; [intros ?; repeat split; (done || lia)|by intros (_ & _ & _ & _ & _ & ?)].
Qed.

End AllowList.

(** *** File types *)

Lemma ends_with_eq suffix s :
  ends_with suffix s =
    String.eqb s suffix ||
    match s with EmptyString => false | String _ s' => ends_with suffix s' end.
Proof. by destruct s. Qed.

Lemma ends_with_spec suffix s :
  ends_with suffix s = true ↔ ∃ stem, s = stem +:+ suffix.
Proof.
  split.
  - induction s as [|c s IH]; rewrite ends_with_eq.
    + rewrite orb_false_r. intros ->%String.eqb_eq. by exists "".
    + intros [->%String.eqb_eq|H]%orb_true_iff; [by exists ""|].
      destruct (IH H) as [stem ->]. by exists (String c stem).
  - intros [stem ->]. induction stem as [|c stem IH].
    + change ("" +:+ suffix) with suffix.
      by rewrite ends_with_eq, String.eqb_refl.
    + change (String c stem +:+ suffix) with (String c (stem +:+ suffix)).
      rewrite ends_with_eq. cbv iota. rewrite IH. apply orb_true_r.
Qed.

(** X12. A file is of an allowed type exactly when its name, put in lower
    case, ends in [.py], [.json], [.yaml], [.yml] or [.md]: the check does
    not tell [README.MD] from [readme.md], and a name that is only the
    extension passes. *)
Theorem allowed_file_types (p : Path) :
  is_allowed_file_type p = true ↔
  ∃ ext stem, ext ∈ [".py"; ".json"; ".yaml"; ".yml"; ".md"] ∧
              lower (name p) = stem +:+ ext.
Proof.
  change (is_allowed_file_type p) with
    (ends_with ".py" (lower (name p)) ||
     (ends_with ".json" (lower (name p)) ||
      (ends_with ".yaml" (lower (name p)) ||
       (ends_with ".yml" (lower (name p)) ||
        (ends_with ".md" (lower (name p)) || false))))).
  rewrite orb_false_r, !orb_true_iff.
  rewrite !ends_with_spec. split.
  - intros [[stem H]|[[stem H]|[[stem H]|[[stem H]|[stem H]]]]];
      eexists _, stem; (split; [|exact H]);
      rewrite !elem_of_cons; tauto.
  - intros (ext & stem & Hext & H).
    rewrite !elem_of_cons, elem_of_nil in Hext.
    destruct Hext as [->|[->|[->|[->|[->|[]]]]]]; eauto 10.
Qed.

End PathsFacts.

(** ** References written in a text *)

Module ReferenceFacts.

Import Paths References.

Lemma span_to_app stop run rest :
  has_char stop run = false →
  Refresh.span_to stop (run +:+ String stop rest) = Some (run, rest).
Proof.
  induction run as [|c run IH]; simpl.
  - intros _. by rewrite Ascii.eqb_refl.
  - intros [Hc Hrun]%orb_false_iff. rewrite Hc, (IH Hrun). done.
Qed.

Lemma span_to_spec stop s : ∀ run rest,
  Refresh.span_to stop s = Some (run, rest) →
  has_char stop run = false ∧ s = run +:+ String stop rest.
Proof.
  induction s as [|c s IH]; intros run rest; simpl; [done|].
  destruct (Ascii.eqb_spec c stop) as [->|Hne].
  - by intros [= <- <-].
  - destruct (Refresh.span_to stop s) as [[run' rest']|]; [|done].
    intros [= <- <-]. destruct (IH run' rest' eq_refl) as [Hrun Hs].
    simpl. rewrite Hrun, Hs. split; [|done].
    apply orb_false_iff. split; [|done]. by apply Ascii.eqb_neq.
Qed.

Lemma nonempty_eqb s : s ≠ "" → String.eqb s "" = false.
Proof. intros Hs. by apply String.eqb_neq. Qed.

Lemma scan_skip_all s : ∀ k, (String.length s ≤ k)%nat → scan k s = [].
Proof.
  induction s as [|c s IH]; intros k Hk; simpl; [done|].
  simpl in Hk. destruct k as [|k]; [lia|]. apply IH. lia.
Qed.

Lemma scan_cons skip c s :
  scan skip (String c s) =
    match skip with
    | S k => scan k s
    | O =>
        match match_here (String c s) with
        | Some (g1, g2, len) => (g1, g2) :: scan (len - 1) s
        | None => scan 0 s
        end
    end.
Proof. reflexivity. Qed.

Lemma length_app (s1 s2 : string) :
  String.length (s1 +:+ s2) = (String.length s1 + String.length s2)%nat.
Proof. induction s1 as [|c s1 IH]; simpl; [done|]. by rewrite IH. Qed.

(** X13. [extract_references] reads back a reference written as
    [{{type:value}}]: when the type is not empty and has no colon, and the
    value is not empty and has no closing brace, the text yields exactly the
    pair of the type and the value. *)
Theorem extract_references_reads_back (ref_type ref_value : string) :
  ref_type ≠ "" → has_char ":" ref_type = false →
  ref_value ≠ "" → has_char "}" ref_value = false →
  extract_references (braced ref_type ref_value) = [(ref_type, ref_value)].
Proof.
  intros Ht Htc Hv Hvc. unfold extract_references, braced.
  change ("{{" +:+ ref_type +:+ ":" +:+ ref_value +:+ "}}")
    with (String "{" (String "{" (ref_type +:+ String ":" (ref_value +:+ String "}" "}")))).
  rewrite scan_cons. unfold match_here.
  rewrite (span_to_app ":" ref_type _ Htc), (nonempty_eqb _ Ht).
  rewrite (span_to_app "}" ref_value _ Hvc), (nonempty_eqb _ Hv).
  f_equal. apply scan_skip_all.
  cbn [String.length]. rewrite length_app. cbn [String.length].
  rewrite length_app. cbn [String.length]. lia.
Qed.

Lemma extract_references_reads_back_witness :
  "variable" ≠ "" ∧ has_char ":" "variable" = false ∧
  "greeting" ≠ "" ∧ has_char "}" "greeting" = false ∧
  extract_references (braced "variable" "greeting") = [("variable", "greeting")].
Proof.
  assert (H1 : "variable" ≠ "") by discriminate.
  assert (H2 : has_char ":" "variable" = false) by reflexivity.
  assert (H3 : "greeting" ≠ "") by discriminate.
  assert (H4 : has_char "}" "greeting" = false) by reflexivity.
  repeat (split; [assumption|]).
  exact (extract_references_reads_back "variable" "greeting" H1 H2 H3 H4).
Defined.

(** *** [create_fence_references] *)

Section Creation.

Variable fs : FileSystem.

Lemma create_loop_known fid pairs : ∀ db,
  Forall (λ r, is_Some (Refresh.ReferenceType_of r.1)) pairs →
  (create_loop fs fid pairs db).1.2 = None.
Proof.
  induction pairs as [|[t v] pairs IH]; intros db Hall; simpl; [done|].
  inversion Hall as [|? ? [rt Hrt] Hrest]; subst. simpl in Hrt. rewrite Hrt.
  destruct (validate_reference fs rt v db) as [[is_valid err] db1].
  specialize (IH db1 Hrest).
  destruct (create_loop fs fid pairs db1) as [[rest error] db2]. simpl in IH.
  by destruct (truthy is_valid).
Qed.

Lemma create_loop_stops fid before t v after : ∀ db,
  Forall (λ r, is_Some (Refresh.ReferenceType_of r.1)) before →
  Refresh.ReferenceType_of t = None →
  create_loop fs fid (before ++ (t, v) :: after) db =
    ((create_loop fs fid before db).1.1,
     Some (repr t +:+ " is not a valid ReferenceType"),
     (create_loop fs fid before db).2).
Proof.
  induction before as [|[t0 v0] before IH]; intros db Hall Ht; simpl.
  - by rewrite Ht.
  - inversion Hall as [|? ? [rt Hrt] Hrest]; subst. simpl in Hrt. rewrite Hrt.
    destruct (validate_reference fs rt v0 db) as [[is_valid err] db1].
    rewrite (IH db1 Hrest Ht).
    destruct (create_loop fs fid before db1) as [[rest error] db2]. simpl.
    by destruct (truthy is_valid).
Qed.

(** X14. [create_fence_references] stops at the first reference whose type
    is none of [file], [variable] and [api]: the error returned is the [repr]
    of that type followed by [ is not a valid ReferenceType], the references
    kept are those kept from the text before it, and nothing that follows it
    is looked at, valid or not. With known types only, no error is
    returned. *)
Theorem unknown_type_stops_creation (fid : Z) (content : string) (db : Database)
  (before after : list (string * string)) (t v : string) :
  extract_references content = before ++ (t, v) :: after →
  Forall (λ r, is_Some (Refresh.ReferenceType_of r.1)) before →
  Refresh.ReferenceType_of t = None →
  create_fence_references fs fid content db =
    ((create_loop fs fid before db).1.1,
     Some (repr t +:+ " is not a valid ReferenceType"),
     (create_loop fs fid before db).2) ∧
  (create_loop fs fid before db).1.2 = None.
Proof.
  intros Hex Hall Ht. unfold create_fence_references. rewrite Hex.
  split; [by apply create_loop_stops|by apply create_loop_known].
Qed.

End Creation.

Lemma unknown_type_stops_creation_witness :
  let content := "a {{variable:greeting}} b {{it's:o/r#1}} c {{variable:greeting}}" in
  let before := [("variable", "greeting")] in
  let after := [("variable", "greeting")] in
  extract_references content = before ++ ("it's", "o/r#1") :: after ∧
  Forall (λ r, is_Some (Refresh.ReferenceType_of r.1)) before ∧
  Refresh.ReferenceType_of "it's" = None ∧
  create_fence_references Sample.fs0 7 content Sample.db0 =
    ((create_loop Sample.fs0 7 before Sample.db0).1.1,
     Some (repr "it's" +:+ " is not a valid ReferenceType"),
     (create_loop Sample.fs0 7 before Sample.db0).2) ∧
  (create_loop Sample.fs0 7 before Sample.db0).1.2 = None.
Proof.
  intros content before after.
  assert (H1 : extract_references content = before ++ ("it's", "o/r#1") :: after)
    by (vm_compute; reflexivity).
  assert (H2 : Forall (λ r, is_Some (Refresh.ReferenceType_of r.1)) before).
  { constructor; [by eexists|constructor]. }
  assert (H3 : Refresh.ReferenceType_of "it's" = None) by reflexivity.
  repeat (split; [assumption|]).
  exact (unknown_type_stops_creation Sample.fs0 7 content Sample.db0 before after
           "it's" "o/r#1" H1 H2 H3).
Defined.

End ReferenceFacts.

(** ** More on refreshing blocks *)

Module RefreshFacts.

Import Paths Refresh References RefreshNotions.

(** *** The references of a block's text *)

Lemma finditer_cons skip c s :
  finditer skip (String c s) =
    match skip with
    | S k => finditer k s
    | O =>
        match Refresh.match_here (String c s) with
        | Some (g1, g2, len) => (g1, g2) :: finditer (len - 1) s
        | None => finditer 0 s
        end
    end.
Proof. reflexivity. Qed.

Lemma finditer_skip_all s : ∀ k, (String.length s ≤ k)%nat → finditer k s = [].
Proof.
  induction s as [|c s IH]; intros k Hk; simpl; [done|].
  simpl in Hk. destruct k as [|k]; [lia|]. apply IH. lia.
Qed.

(** X15. [refresh_block]'s pattern reads back a reference written as
    [@[type:value]]: when the type is not empty and has no colon, and the
    value is not empty and has no closing bracket, the text yields exactly
    the pair of the type and the value. *)
Theorem finditer_reads_back (ref_type ref_value : string) :
  ref_type ≠ "" → has_char ":" ref_type = false →
  ref_value ≠ "" → has_char "]" ref_value = false →
  finditer 0 (bracketed ref_type ref_value) = [(ref_type, ref_value)].
Proof.
  intros Ht Htc Hv Hvc. unfold bracketed.
  change ("@[" +:+ ref_type +:+ ":" +:+ ref_value +:+ "]")
    with (String "@" (String "[" (ref_type +:+ String ":" (ref_value +:+ String "]" "")))).
  rewrite finditer_cons. unfold Refresh.match_here.
  rewrite (ReferenceFacts.span_to_app ":" ref_type _ Htc),
    (ReferenceFacts.nonempty_eqb _ Ht).
  rewrite (ReferenceFacts.span_to_app "]" ref_value _ Hvc),
    (ReferenceFacts.nonempty_eqb _ Hv).
  f_equal. apply finditer_skip_all.
  cbn [String.length]. rewrite ReferenceFacts.length_app. cbn [String.length].
  rewrite ReferenceFacts.length_app. cbn [String.length]. lia.
Qed.

Lemma finditer_reads_back_witness :
  "variable" ≠ "" ∧ has_char ":" "variable" = false ∧
  "missing" ≠ "" ∧ has_char "]" "missing" = false ∧
  finditer 0 (bracketed "variable" "missing") = [("variable", "missing")].
Proof.
  assert (H1 : "variable" ≠ "") by discriminate.
  assert (H2 : has_char ":" "variable" = false) by reflexivity.
  assert (H3 : "missing" ≠ "") by discriminate.
  assert (H4 : has_char "]" "missing" = false) by reflexivity.
  repeat (split; [assumption|]).
  exact (finditer_reads_back "variable" "missing" H1 H2 H3 H4).
Defined.

Lemma match_here_groups s g1 g2 len :
  Refresh.match_here s = Some (g1, g2, len) →
  g1 ≠ "" ∧ g2 ≠ "" ∧ has_char ":" g1 = false ∧ has_char "]" g2 = false.
Proof.
  unfold Refresh.match_here.
  destruct s as [|c1 [|c2 s1]]; [done|by repeat case_match|].
  destruct (Ascii.eqb_spec c1 "@") as [->|?]; [|by repeat case_match].
  destruct (Ascii.eqb_spec c2 "[") as [->|?]; [|by repeat case_match].
  destruct (Refresh.span_to ":" s1) as [[h1 s2]|] eqn:H1; [|done].
  destruct (String.eqb_spec h1 ""); [done|].
  destruct (Refresh.span_to "]" s2) as [[h2 s3]|] eqn:H2; [|done].
  destruct (String.eqb_spec h2 ""); [done|].
  intros [= <- <- _].
  apply ReferenceFacts.span_to_spec in H1 as [? _].
  apply ReferenceFacts.span_to_spec in H2 as [? _]. done.
Qed.

(** X16. Whatever the text, every reference [refresh_block] extracts from it
    has a type that is not empty and holds no colon, and a value that is not
    empty and holds no closing bracket. *)
Theorem extracted_references_well_formed (s : string) :
  Forall (λ r, r.1 ≠ "" ∧ r.2 ≠ "" ∧
               has_char ":" r.1 = false ∧ has_char "]" r.2 = false)
         (finditer 0 s).
Proof.
  generalize 0%nat. induction s as [|c s IH]; intros skip; [constructor|].
  rewrite finditer_cons. destruct skip as [|k]; [|apply IH].
  destruct (Refresh.match_here (String c s)) as [[[g1 g2] len]|] eqn:Hm; [|apply IH].
  constructor; [|apply IH]. by eapply match_here_groups.
Qed.

(** *** One block *)

Lemma get_held b c : Counter.get_block_count b c = (held c b, []).
Proof. apply CounterFacts.get_block_count_lookup. Qed.

Lemma refresh_block_counter env b c w :
  match refresh_block env b c w with
  | (Ok r, w') =>
      0 ≤ token_count r ∧
      Counter._blocks (counter w') =
        (if token_count r =? 0 then delete b (Counter._blocks (counter w))
         else <[b := {| Counter.id := b; Counter.token_count := token_count r |}]>
                (Counter._blocks (counter w))) ∧
      total_tokens r = Counter.total_tokens (counter w') ∧
      Counter.consistent (counter w')
  | (Raise _, w') => counter w' = counter w
  end.
Proof.
  unfold refresh_block.
  destruct (reference_content_of env _ _) as [rc d1].
  destruct (count_tokens env _) as [n|e]; [|done].
  unfold Counter.update_block.
  destruct (Z.ltb_spec n 0); [done|]. simpl. done.
Qed.

(** X17. A [refresh_block] that returns has written the count it returns to
    the counter for its block: the count is not negative, [get_block_count]
    gives it back, the counts of the other blocks are untouched, the total it
    reports is the counter's and is the sum of the counter's blocks, and the
    content returned is the text passed in. A [refresh_block] that raises,
    raises a [RefreshError] that names the block and carries its cause, and
    leaves the counter as it was. *)
Theorem refresh_block_writes_its_count (env : Env) (b : string) (c : option string)
  (w : World) :
  match refresh_block env b c w with
  | (Ok r, w') =>
      content r = default "" c ∧
      0 ≤ token_count r ∧
      Counter.get_block_count b (counter w') = (token_count r, []) ∧
      (∀ j, j ≠ b → Counter.get_block_count j (counter w')
                    = Counter.get_block_count j (counter w)) ∧
      total_tokens r = Counter.total_tokens (counter w') ∧
      Counter.consistent (counter w')
  | (Raise e, w') =>
      counter w' = counter w ∧
      exn_class e = RefreshError ∧
      exn_str e = "Failed to refresh block " +:+ b ∧
      is_Some (exn_cause e)
  end.
Proof.
  pose proof (refresh_block_counter env b c w) as Hc.
  assert (Hshape : match refresh_block env b c w with
                   | (Ok r, _) => content r = default "" c
                   | (Raise e, _) =>
                       exn_class e = RefreshError ∧
                       exn_str e = "Failed to refresh block " +:+ b ∧
                       is_Some (exn_cause e)
                   end).
  { unfold refresh_block.
    destruct (reference_content_of env _ _) as [rc d1].
    destruct (count_tokens env _) as [n|e]; [|by repeat split; eauto].
    unfold Counter.update_block.
    destruct (Z.ltb_spec n 0); [by repeat split; eauto|done]. }
  destruct (refresh_block env b c w) as [[r|e] w']; [|by destruct Hshape as (? & ? & ?)].
  destruct Hc as (Hn & Hblocks & Htotal & Hcons).
  split; [exact Hshape|]. split; [exact Hn|].
  split; [|split; [|by split]].
  - rewrite get_held. unfold held. rewrite Hblocks. f_equal.
    destruct (Z.eqb_spec (token_count r) 0) as [->|_].
    + by rewrite lookup_delete_eq.
    + by rewrite lookup_insert_eq.
  - intros j Hj. rewrite !get_held. unfold held. rewrite Hblocks. f_equal.
    destruct (token_count r =? 0).
    + by rewrite lookup_delete_ne.
    + by rewrite lookup_insert_ne.
Qed.

(** *** All blocks *)

Lemma sum_blocks_insert (m : gmap string Counter.TokenBlock) b blk :
  m !! b = None →
  Counter.sum_blocks (<[b := blk]> m) = Counter.token_count blk + Counter.sum_blocks m.
Proof.
  intros Hb. unfold Counter.sum_blocks.
  apply (map_fold_insert_L (λ _ b acc, Counter.token_count b + acc)); [|done].
  intros; lia.
Qed.

(** One refresh of a block the counter and the dicts do not hold yet keeps
    them in agreement. *)
Lemma refresh_step_agree env b c w acc :
  agree (counter w) acc →
  Counter._blocks (counter w) !! b = None →
  block_tokens acc !! b = None →
  let '(r, w') := refresh_block env b c w in
  agree (counter w') (tally acc (b, r)) ∧
  ∀ j, j ≠ b →
    Counter._blocks (counter w') !! j = Counter._blocks (counter w) !! j ∧
    block_tokens (tally acc (b, r)) !! j = block_tokens acc !! j.
Proof.
  intros [Hheld Hsum] Hb Hacc.
  pose proof (refresh_block_counter env b c w) as H.
  destruct (refresh_block env b c w) as [[r|e] w']; unfold tally; simpl.
  - destruct H as (Hn & Hblocks & _). split; [split|].
    + intros j. unfold held. rewrite Hblocks. cbn [block_tokens].
      destruct (decide (j = b)) as [->|Hne].
      * rewrite lookup_insert_eq. simpl.
        destruct (Z.eqb_spec (token_count r) 0) as [->|_].
        -- by rewrite lookup_delete_eq.
        -- by rewrite lookup_insert_eq.
      * rewrite lookup_insert_ne by done. rewrite <- Hheld. unfold held.
        destruct (token_count r =? 0).
        -- by rewrite lookup_delete_ne.
        -- by rewrite lookup_insert_ne.
    + rewrite Hblocks. cbn [all_total_tokens].
      destruct (Z.eqb_spec (token_count r) 0) as [->|_].
      * rewrite delete_id by done. lia.
      * rewrite sum_blocks_insert by done. simpl. lia.
    + intros j Hj. rewrite Hblocks. cbn [block_tokens]. split.
      * destruct (token_count r =? 0).
        -- by rewrite lookup_delete_ne.
        -- by rewrite lookup_insert_ne.
      * by rewrite lookup_insert_ne.
  - rewrite H. done.
Qed.

Lemma gather_agree env cs blocks : ∀ w acc,
  NoDup blocks →
  agree (counter w) acc →
  (∀ b, b ∈ blocks → Counter._blocks (counter w) !! b = None ∧
                     block_tokens acc !! b = None) →
  agree (counter (gather env blocks cs w).2)
        (foldl tally acc (zip blocks (gather env blocks cs w).1)).
Proof.
  induction blocks as [|b blocks IH]; intros w acc Hnd Hag Hfree; simpl; [done|].
  apply NoDup_cons in Hnd as [Hb Hnd].
  destruct (Hfree b) as [Hb1 Hb2]; [by left|].
  pose proof (refresh_step_agree env b (content_of cs b) w acc Hag Hb1 Hb2) as Hstep.
  destruct (refresh_block env b (content_of cs b) w) as [r w1].
  destruct Hstep as [Hag1 Hother].
  specialize (IH w1 (tally acc (b, r)) Hnd Hag1).
  destruct (gather env blocks cs w1) as [rs w2]. simpl in *.
  apply IH. intros j Hj.
  assert (j ≠ b) by (intros ->; done).
  destruct (Hother j) as [-> ->]; [done|]. apply Hfree. by right.
Qed.

(** X18. When the block ids are all different and the thirty seconds are
    not exceeded, [refresh_all] leaves the counter in step with what it
    returns: the total is the sum of the counter's blocks, and for every
    block id [get_block_count] is the count listed in [block_tokens], 0 for
    an id that is not listed. *)
Theorem refresh_all_leaves_counter_in_step (env : Env) (blocks : list string)
  (cs : option (gmap string string)) (w : World) :
  NoDup blocks →
  ∃ r w',
    refresh_all env blocks cs None w = (Ok r, w') ∧
    Counter.total_tokens (counter w') = all_total_tokens r ∧
    Counter.consistent (counter w') ∧
    ∀ b, Counter.get_block_count b (counter w')
         = (default 0 (block_tokens r !! b), []).
Proof.
  intros Hnd.
  destruct (RefreshProps.refresh_all_in_time env blocks cs w) as (w' & Hrun & _ & Htot).
  eexists _, w'. split; [exact Hrun|]. split; [exact Htot|].
  set (w0 := with_counter (Counter.reset (counter w)).1 w) in *.
  assert (Hag : agree (counter (gather env blocks cs w0).2)
                  (foldl tally empty_result (zip blocks (gather env blocks cs w0).1))).
  { apply gather_agree; [done| |].
    - split; [intros b; unfold held; simpl; by rewrite lookup_empty|].
      simpl. apply CounterProps.sum_blocks_empty.
    - intros b _. simpl. by rewrite !lookup_empty. }
  destruct Hag as [Hheld Hsum].
  assert (Hblocks : Counter._blocks (counter w')
                    = Counter._blocks (counter (gather env blocks cs w0).2)).
  { unfold refresh_all in Hrun. fold w0 in Hrun.
    destruct (gather env blocks cs w0) as [rs w1]. simpl in *.
    unfold Counter.set_total_tokens in Hrun.
    destruct (_ <? 0); [done|]. by injection Hrun as <-. }
  split.
  - unfold Counter.consistent. rewrite Hblocks, Hsum. exact Htot.
  - intros b. rewrite get_held. unfold held. rewrite Hblocks. f_equal. apply Hheld.
Qed.

Lemma refresh_all_leaves_counter_in_step_witness :
  NoDup ["b1"; "b2"] ∧
  ∃ r w',
    refresh_all Sample.env0 ["b1"; "b2"] (Some Sample.contents0) None Sample.w0
      = (Ok r, w') ∧
    Counter.total_tokens (counter w') = all_total_tokens r ∧
    Counter.consistent (counter w') ∧
    ∀ b, Counter.get_block_count b (counter w')
         = (default 0 (block_tokens r !! b), []).
Proof.
  assert (H : NoDup ["b1"; "b2"]).
  { apply NoDup_cons. split; [|apply NoDup_singleton].
    intros [?|[]%elem_of_nil]%elem_of_cons. discriminate. }
  split; [exact H|].
  exact (refresh_all_leaves_counter_in_step Sample.env0 ["b1"; "b2"]
           (Some Sample.contents0) Sample.w0 H).
Defined.

Lemma tally_keys blocks : ∀ (results : list (Py.result BlockResult)) acc b,
  is_Some (block_tokens (foldl tally acc (zip blocks results)) !! b) →
  b ∈ blocks ∨ is_Some (block_tokens acc !! b).
Proof.
  induction blocks as [|b0 blocks IH]; intros results acc b; simpl; [by right|].
  destruct results as [|r results]; simpl; [by right|].
  intros H. apply IH in H as [H|H]; [left; by right|].
  unfold tally in H. simpl in H. destruct r as [r|e]; simpl in H; [|by right].
  destruct (decide (b0 = b)) as [->|Hne]; [left; by left|].
  rewrite lookup_insert_ne in H by done. by right.
Qed.

(** X19. Within its thirty seconds [refresh_all] does not raise, whatever
    the blocks, their contents and what their refreshes do: it returns a total
    that is not negative and equal to the sum of the counts of the refreshes
    that returned, it lists in [block_tokens] only ids it was given, and it
    writes that total to the counter. For no block at all the total is 0. *)
Theorem refresh_all_returns_in_time (env : Env) (blocks : list string)
  (cs : option (gmap string string)) (w : World) :
  ∃ r w',
    refresh_all env blocks cs None w = (Ok r, w') ∧
    0 ≤ all_total_tokens r ∧
    all_total_tokens r =
      sum_counts (ok_counts
        (gather env blocks cs (with_counter (Counter.reset (counter w)).1 w)).1) ∧
    (∀ b, is_Some (block_tokens r !! b) → b ∈ blocks) ∧
    Counter.total_tokens (counter w') = all_total_tokens r ∧
    (blocks = [] → all_total_tokens r = 0).
Proof.
  destruct (RefreshProps.refresh_all_in_time env blocks cs w) as (w' & Hrun & Hsum & Htot).
  eexists _, w'. split; [exact Hrun|].
  split; [|split; [exact Hsum|split; [|split; [exact Htot|]]]].
  - rewrite Hsum. apply RefreshProps.sum_counts_nonneg, RefreshProps.gather_nonneg.
  - intros b Hb. apply tally_keys in Hb as [?|[? Hb]]; [done|].
    simpl in Hb. by rewrite lookup_empty in Hb.
  - by intros ->.
Qed.

(** *** Files *)


End RefreshFacts.

(** ** The error notification service *)

Module NotificationFacts.

Import Notifications NotificationNotions.

(** *** The buffer of recent notifications *)

Lemma keep_all max l : (length l ≤ max)%nat → keep max l = l.
Proof.
  intros H. unfold keep. replace (length l - max)%nat with 0%nat by lia. done.
Qed.

Lemma keep_length max l : length (keep max l) = (length l `min` max)%nat.
Proof. unfold keep. rewrite length_drop. lia. Qed.

Lemma keep_app max a b : keep max (keep max a ++ b) = keep max (a ++ b).
Proof.
  destruct (decide (length a ≤ max)%nat) as [Hle|Hgt]; [by rewrite (keep_all max a)|].
  unfold keep at 1 3. rewrite !length_app, keep_length, !drop_app, keep_length.
  unfold keep. rewrite drop_drop. f_equal; f_equal; lia.
Qed.

Lemma remember_keep n max recent :
  (length recent ≤ max)%nat → remember n max recent = keep max (recent ++ [n]).
Proof.
  intros H. unfold remember, keep. rewrite length_app. simpl.
  destruct (Nat.ltb_spec max (length recent + 1)).
  - replace (length recent + 1 - max)%nat with 1%nat by lia. done.
  - replace (length recent + 1 - max)%nat with 0%nat by lia. done.
Qed.

Lemma run_buffer ops : ∀ s,
  (length (_recent_notifications s) ≤ _max_recent s)%nat →
  _max_recent (run ops s) = _max_recent s ∧
  _recent_notifications (run ops s) =
    keep (_max_recent s)
         (_recent_notifications s ++ imap (stamped (now s)) (notices ops)).
Proof.
  induction ops as [|o ops IH]; intros s Hlen.
  - simpl. split; [done|]. rewrite app_nil_r. by rewrite keep_all.
  - change (run (o :: ops) s) with (run ops (run1 o s)).
    destruct o as [l|l|n].
    + change (notices (Add l :: ops)) with (notices ops).
      assert (Hsame : _recent_notifications (run1 (Add l) s) = _recent_notifications s
                      ∧ _max_recent (run1 (Add l) s) = _max_recent s
                      ∧ now (run1 (Add l) s) = now s).
      { simpl. unfold add_listener. by destruct (existsb _ _). }
      destruct Hsame as (Hr & Hm & Hn).
      destruct (IH (run1 (Add l) s)) as [Hmax Hrec]; [by rewrite Hr, Hm|].
      by rewrite Hmax, Hrec, Hr, Hm, Hn.
    + change (notices (Remove l :: ops)) with (notices ops).
      destruct (IH (run1 (Remove l) s)) as [Hmax Hrec]; done.
    + change (notices (Notify n :: ops)) with (n :: notices ops).
      set (x := stamped (now s) 0 n).
      set (s1 := run1 (Notify n) s).
      assert (Hm : _max_recent s1 = _max_recent s) by done.
      assert (Hn : now s1 = S (now s)) by done.
      assert (Hx : _recent_notifications s1
                   = keep (_max_recent s) (_recent_notifications s ++ [x])).
      { unfold s1, run1, notify_with, notify.
        cbn [fst _recent_notifications _max_recent].
        rewrite remember_keep by done.
        unfold x, stamped. by rewrite Nat.add_0_r. }
      destruct (IH s1) as [Hmax Hrec].
      { rewrite Hx, keep_length, Hm. lia. }
      split; [by rewrite Hmax|]. rewrite Hrec, Hx, Hm, Hn.
      rewrite keep_app, <- app_assoc. simpl. do 3 f_equal.
      apply imap_ext. intros i y _. unfold stamped; simpl. f_equal. lia.
Qed.

(** X21. The service remembers the last hundred notifications, oldest
    first, each with the time of its call: whatever listeners are added and
    removed in between, after any sequence of operations on a fresh service the
    buffer is the last 100 of the notifications sent, so it never holds more
    than 100, and [get_recent_notifications()] returns exactly that. *)
Theorem buffer_holds_last_hundred (ops : list op) :
  let s := run ops init in
  _recent_notifications s = keep 100 (imap (stamped 0) (notices ops)) ∧
  (length (_recent_notifications s) ≤ 100)%nat ∧
  get_recent_notifications None None s = _recent_notifications s.
Proof.
  cbv zeta. destruct (run_buffer ops init) as [_ Hrec]; [simpl; lia|].
  simpl in Hrec. rewrite Hrec. split; [done|]. split; [|done].
  rewrite keep_length. lia.
Qed.

(** *** Reading the buffer *)

Lemma severity_eqb_eq a b : severity_eqb a b = true ↔ a = b.
Proof. destruct a, b; simpl; split; congruence. Qed.

(** X22. [get_recent_notifications] with both arguments. Without a limit
    it returns the remembered notifications, or with a severity those of that
    severity and no others, each as often as it is remembered and in the order
    in which they were sent. A positive [limit] returns the last [limit] of
    them in that order (all of them when there are fewer), a [limit] of 0
    returns them all, and a negative [limit] does not limit but skips that
    many of the oldest. *)
Theorem recent_notifications_limit (limit : Z) (sev : option ErrorSeverity)
  (s : ErrorNotificationService) :
  get_recent_notifications None sev s = wanted sev s ∧
  get_recent_notifications (Some limit) sev s =
    (if 0 <? limit then keep (Z.to_nat limit) (wanted sev s)
     else if limit =? 0 then wanted sev s
     else drop (Z.to_nat (- limit)) (wanted sev s)).
Proof.
  assert (Hall : get_recent_notifications None sev s = wanted sev s).
  { unfold get_recent_notifications, wanted. destruct sev as [v|]; [|done].
    apply list_filter_iff. intros n. apply severity_eqb_eq. }
  split; [exact Hall|].
  unfold get_recent_notifications in *. rewrite Hall.
  unfold slice_from_minus, keep.
  destruct (Z.ltb_spec 0 limit), (Z.eqb_spec limit 0); try done; lia.
Qed.

(** *** Listeners *)

Lemma omap_head {A B} (f : A → option B) x l :
  omap f (x :: l) = match f x with Some y => y :: omap f l | None => omap f l end.
Proof. reflexivity. Qed.

Lemma handed_notify name n s :
  handed name (notify_with n s).2 =
    omap (λ l, if Nat.eqb (lname l) name then Some (stamped (now s) 0 n) else None)
         (_listeners s).
Proof.
  unfold notify_with, notify, handed. cbn [snd].
  replace {| message := n_message n; severity := n_severity n; source := n_source n;
             timestamp := now s; details := n_details n; error_code := n_code n |}
    with (stamped (now s) 0 n) by (unfold stamped; by rewrite Nat.add_0_r).
  rewrite omap_head.
  induction (_listeners s) as [|l ls IH]; [done|].
  cbn [flat_map]. rewrite omap_app, IH.
  destruct (lname l =? name)%nat eqn:E; destruct (lraises l _); simpl; by rewrite ?E.
Qed.

Lemma handed_by_name (note : ErrorNotification) name ls :
  NoDup (lname <$> ls) →
  omap (λ l, if Nat.eqb (lname l) name then Some note else None) ls =
    if bool_decide (name ∈ lname <$> ls) then [note] else [].
Proof.
  induction ls as [|l ls IH]; [done|]. rewrite fmap_cons.
  intros [Hl Hnd]%NoDup_cons. rewrite omap_head, (IH Hnd).
  destruct (Nat.eqb_spec (lname l) name) as [<-|Hne].
  - rewrite (bool_decide_eq_false_2 _ Hl).
    rewrite bool_decide_eq_true_2; [done|]. by left.
  - destruct (decide (name ∈ lname <$> ls)) as [Hin|Hout].
    + rewrite !bool_decide_eq_true_2; [done|by right|done].
    + rewrite !bool_decide_eq_false_2; [done| |done].
      intros [?|?]%elem_of_cons; congruence.
Qed.

Lemma run_names_unique ops : ∀ s,
  NoDup (registered s) → NoDup (registered (run ops s)).
Proof.
  unfold registered.
  induction ops as [|o ops IH]; intros s Hnd; simpl; [done|].
  apply IH. destruct o as [l|l|n]; [| |done].
  - unfold run1, add_listener. destruct (existsb _ _) eqn:Hex; [done|].
    cbn [_listeners]. rewrite fmap_app. apply NoDup_app. split; [done|].
    split; [|apply NoDup_singleton].
    intros x Hx ->%list_elem_of_singleton.
    apply list_elem_of_fmap in Hx as (l' & Hname & Hin).
    assert (existsb (λ l', Nat.eqb (lname l') (lname l)) (_listeners s) = true); [|congruence].
    apply existsb_exists. exists l'. split; [by apply list_elem_of_In|].
    apply Nat.eqb_eq. congruence.
  - unfold run1, remove_listener. cbn [_listeners].
    apply (sublist_NoDup _ (lname <$> _listeners s)); [done|].
    apply fmap_sublist, sublist_filter.
Qed.

(** What [notify] hands out on a state reached from a fresh service. *)
Lemma handed_reached ops n name :
  handed name (notify_with n (run ops init)).2 =
    if bool_decide (name ∈ registered (run ops init))
    then [stamped (now (run ops init)) 0 n] else [].
Proof.
  rewrite handed_notify. apply handed_by_name.
  apply (run_names_unique ops init). apply NoDup_nil_2.
Qed.

Lemma registered_add l s name :
  name ∈ registered (add_listener l s) ↔ name = lname l ∨ name ∈ registered s.
Proof.
  unfold registered, add_listener.
  destruct (existsb _ _) eqn:Hex.
  - split; [by right|]. intros [->|?]; [|done].
    apply existsb_exists in Hex as (l' & Hin & Hname%Nat.eqb_eq).
    apply list_elem_of_fmap. exists l'. split; [done|by apply list_elem_of_In].
  - cbn [_listeners]. rewrite fmap_app, elem_of_app. simpl.
    rewrite list_elem_of_singleton. tauto.
Qed.

Lemma registered_remove l s name :
  name ∈ registered (remove_listener l s) ↔ name ≠ lname l ∧ name ∈ registered s.
Proof.
  unfold registered, remove_listener. cbn [_listeners].
  rewrite !list_elem_of_fmap. split.
  - intros (l' & -> & [Hne Hin]%list_elem_of_filter). split; [done|by exists l'].
  - intros (Hne & l' & -> & Hin). exists l'. split; [done|].
    by apply list_elem_of_filter.
Qed.

(** X23. Whatever was added, removed and sent before, [notify] hands the
    notification it makes (the arguments it was called with, stamped with the
    time of the call) to every listener in the set, once each, and nothing
    else to anybody, whether or not listeners raise. So a listener that is
    added, even one added before, is handed the next notification exactly
    once; a listener that is removed is handed nothing; and adding or removing
    one listener changes nothing for the others. *)
Theorem listeners_are_served_once (ops : list op) (n : notice) (l : Listener) :
  let s := run ops init in
  let note := stamped (now s) 0 n in
  (∀ name, handed name (notify_with n s).2
           = if bool_decide (name ∈ registered s) then [note] else []) ∧
  handed (lname l) (notify_with n (add_listener l s)).2 = [note] ∧
  handed (lname l) (notify_with n (remove_listener l s)).2 = [] ∧
  ∀ other, other ≠ lname l →
    handed other (notify_with n (add_listener l s)).2
      = handed other (notify_with n s).2 ∧
    handed other (notify_with n (remove_listener l s)).2
      = handed other (notify_with n s).2.
Proof.
  cbv zeta.
  assert (Hadd : ∀ name, handed name (notify_with n (add_listener l (run ops init))).2 =
            if bool_decide (name ∈ registered (add_listener l (run ops init)))
            then [stamped (now (run ops init)) 0 n] else []).
  { intros name. pose proof (handed_reached (ops ++ [Add l]) n name) as H.
    unfold run in H. rewrite foldl_app in H. cbn [foldl run1] in H.
    fold (run ops init) in H. rewrite H. do 3 f_equal.
    unfold add_listener. by destruct (existsb _ _). }
  assert (Hrem : ∀ name, handed name (notify_with n (remove_listener l (run ops init))).2 =
            if bool_decide (name ∈ registered (remove_listener l (run ops init)))
            then [stamped (now (run ops init)) 0 n] else []).
  { intros name. pose proof (handed_reached (ops ++ [Remove l]) n name) as H.
    unfold run in H. rewrite foldl_app in H. cbn [foldl run1] in H.
    fold (run ops init) in H. by rewrite H. }
  split; [intros name; apply handed_reached|].
  split; [|split].
  - rewrite Hadd, bool_decide_eq_true_2; [done|]. apply registered_add. by left.
  - rewrite Hrem, bool_decide_eq_false_2; [done|].
    intros [? _]%registered_remove. done.
  - intros other Hne. rewrite Hadd, Hrem, handed_reached. split.
    + rewrite (bool_decide_ext (other ∈ registered (add_listener l (run ops init)))
                 (other ∈ registered (run ops init))); [done|].
      rewrite registered_add. tauto.
    + rewrite (bool_decide_ext (other ∈ registered (remove_listener l (run ops init)))
                 (other ∈ registered (run ops init))); [done|].
      rewrite registered_remove. tauto.
Qed.

End NotificationFacts.

(** ** The retry decorator *)

Module RetryFacts.

Import Retry.

Section Delays.

Context {D : Type} (mul : D → D → D) (negative : D → bool).

Lemma attempts_stop {A} (func : nat → Py.result A) catches retries backoff :
  ∀ k todo a d last,
  (k < todo)%nat →
  (∀ j, (j < k)%nat → ∃ e, func (a + j)%nat = Raise e ∧ catches e = true) →
  Z.of_nat (a + k) ≤ retries →
  Forall (λ d, negative d = false) (delays mul d backoff k) →
  match func (a + k)%nat with
  | Ok _ => True
  | Raise e => catches e = false ∨ Z.of_nat (a + k) = retries
  end →
  ∃ tr,
    attempts mul negative func catches retries backoff todo a d last =
      (match func (a + k)%nat with Ok v => Ok (Some v) | Raise e => Raise e end, tr) ∧
    calls tr = seq a (S k) ∧ sleeps tr = delays mul d backoff k ∧
    moves tr = schedule mul a d backoff k ++ [Call (a + k)%nat].
Proof.
  induction k as [|k IH]; intros todo a d last Htodo Hfail Hle Hdelays Hlast;
    (destruct todo as [|todo]; [lia|]); simpl.
  - rewrite Nat.add_0_r in *.
    destruct (func a) as [v|e]; [by eexists|].
    destruct (catches e) eqn:Hc; [|by eexists].
    destruct Hlast as [?|Hlast]; [done|].
    apply Z.eqb_eq in Hlast. rewrite Hlast. by eexists.
  - destruct (Hfail 0%nat) as (e & He & Hc); [lia|].
    rewrite Nat.add_0_r in He. rewrite He, Hc.
    destruct (Z.eqb_spec (Z.of_nat a) retries); [lia|].
    inversion Hdelays as [|? ? Hd Hrest]; subst. rewrite Hd.
    replace (a + S k)%nat with (S a + k)%nat in * by lia.
    destruct (IH todo (S a) (mul d backoff) (Some e))
      as (tr & -> & Hcalls & Hsleeps & Hmoves); try done; [lia| |].
    { intros j Hj. replace (S a + j)%nat with (a + S j)%nat by lia. apply Hfail. lia. }
    eexists. split; [reflexivity|]. simpl. by rewrite Hcalls, Hsleeps, Hmoves.
Qed.

(** X24. What a decorated call does, up to its first final outcome. Let
    call [k] (counted from 0, with [k] at most [retries]) be the first that
    returns, or raises an exception that is not listed, or is the last one
    allowed (number [retries]), the calls before it all raising listed
    exceptions, and let no delay be refused by [time.sleep]. Then the function
    is called exactly [k + 1] times and the decorator sleeps [k] times, calls
    and sleeps alternating: after the failed call number [j] and before the
    next call it sleeps [delay * backoff^j], that is [delay], then
    [delay * backoff], and so on, and nothing is slept after call [k]. The
    outcome of call [k] is the outcome of the decorated call: its value, or
    its exception. *)
Theorem retry_outcome {A} (func : nat → Py.result A) (catches : exn → bool)
  (retries : Z) (delay backoff : D) (k : nat) :
  Z.of_nat k ≤ retries →
  (∀ j, (j < k)%nat → ∃ e, func j = Raise e ∧ catches e = true) →
  Forall (λ d, negative d = false) (delays mul delay backoff k) →
  match func k with
  | Ok _ => True
  | Raise e => catches e = false ∨ Z.of_nat k = retries
  end →
  ∃ tr,
    retry mul negative retries delay backoff catches func =
      (match func k with Ok v => Ok (Some v) | Raise e => Raise e end, tr) ∧
    moves tr = schedule mul 0 delay backoff k ++ [Call k] ∧
    calls tr = seq 0 (S k) ∧
    sleeps tr = delays mul delay backoff k.
Proof.
  intros Hle Hfail Hdelays Hlast. unfold retry.
  destruct (attempts_stop func catches retries backoff k (Z.to_nat (retries + 1))
              0%nat delay None) as (tr & Hrun & Hcalls & Hsleeps & Hmoves);
    try done; [lia|].
  exists tr. done.
Qed.

Lemma attempts_bound {A} (func : nat → Py.result A) catches retries backoff :
  ∀ todo a d last,
  Z.of_nat a + Z.of_nat todo = retries + 1 →
  let '(r, tr) := attempts mul negative func catches retries backoff todo a d last in
  (length (calls tr) ≤ todo)%nat ∧ (length (sleeps tr) ≤ todo - 1)%nat ∧
  (r = Ok None → todo = 0%nat ∧ last = None).
Proof.
  induction todo as [|todo IH]; intros a d last Hsum; simpl.
  - destruct last; simpl; split; try split; try done; lia.
  - destruct (func a) as [v|e]; simpl; [split; [lia|split; [lia|done]]|].
    destruct (catches e); simpl; [|split; [lia|split; [lia|done]]].
    destruct (Z.eqb_spec (Z.of_nat a) retries); simpl; [split; [lia|split; [lia|done]]|].
    destruct (negative d); simpl; [split; [lia|split; [lia|done]]|].
    specialize (IH (S a) (mul d backoff) (Some e) ltac:(lia)).
    destruct (attempts _ _ _ _ _ _ _ _ _ _) as [r tr]. simpl.
    destruct IH as (Hc & Hs & Hn).
    split; [lia|]. split; [lia|]. intros Hr. destruct (Hn Hr) as [_ ?]. done.
Qed.

(** X25. Whatever the decorated function does, it is called at most
    [retries + 1] times and the decorator sleeps at most [retries] times. With
    a negative [retries] the function is not called at all and the call returns
    [None]; that is the only way the decorator's own [None] is returned. *)
Theorem retry_is_bounded {A} (func : nat → Py.result A) (catches : exn → bool)
  (retries : Z) (delay backoff : D) :
  let run := retry mul negative retries delay backoff catches func in
  (length (calls run.2) ≤ Z.to_nat (retries + 1))%nat ∧
  (length (sleeps run.2) ≤ Z.to_nat retries)%nat ∧
  (retries < 0 → run = (Ok None, [])) ∧
  (run.1 = Ok None → retries < 0).
Proof.
  cbv zeta. unfold retry.
  destruct (Z.ltb_spec retries 0) as [Hneg|Hpos].
  - replace (Z.to_nat (retries + 1)) with 0%nat by lia. simpl.
    split; [lia|]. split; [lia|]. done.
  - pose proof (attempts_bound func catches retries backoff
                  (Z.to_nat (retries + 1)) 0%nat delay None ltac:(lia)) as H.
    destruct (attempts _ _ _ _ _ _ _ _ _ _) as [r tr]. simpl.
    destruct H as (Hc & Hs & Hn).
    split; [lia|]. split; [lia|]. split; [lia|].
    intros Hr. destruct (Hn Hr) as [? _]. lia.
Qed.

End Delays.

Lemma retry_outcome_witness :
  let func := λ k : nat,
    if (k <? 2)%nat then Raise (Exn PlainException "busy") else Ok "done" in
  let catches := λ _ : exn, true in
  let negative := λ d : Z, d <? 0 in
  Z.of_nat 2 ≤ 3 ∧
  (∀ j, (j < 2)%nat → ∃ e, func j = Raise e ∧ catches e = true) ∧
  Forall (λ d, negative d = false) (delays Z.mul 1 2 2) ∧
  match func 2%nat with
  | Ok _ => True
  | Raise e => catches e = false ∨ Z.of_nat 2 = 3
  end ∧
  ∃ tr,
    retry Z.mul negative 3 1 2 catches func =
      (match func 2%nat with Ok v => Ok (Some v) | Raise e => Raise e end, tr) ∧
    moves tr = schedule Z.mul 0 1 2 2 ++ [Call 2%nat] ∧
    calls tr = seq 0 3 ∧
    sleeps tr = delays Z.mul 1 2 2.
Proof.
  intros func catches negative.
  assert (H1 : Z.of_nat 2 ≤ 3) by lia.
  assert (H2 : ∀ j, (j < 2)%nat → ∃ e, func j = Raise e ∧ catches e = true).
  { intros j Hj. exists (Exn PlainException "busy").
    destruct j as [|[|j]]; [done|done|lia]. }
  assert (H3 : Forall (λ d, negative d = false) (delays Z.mul 1 2 2)).
  { simpl. repeat constructor. }
  assert (H4 : match func 2%nat with
               | Ok _ => True
               | Raise e => catches e = false ∨ Z.of_nat 2 = 3
               end) by exact I.
  repeat (split; [assumption|]).
  exact (retry_outcome Z.mul negative func catches 3 1 2 2 H1 H2 H3 H4).
Defined.

End RetryFacts.
